(** * Sliding-puzzle engine (spgame.ts): shallow embedding and properties

    The development follows [src/spgame.ts].  JavaScript numbers that the
    game logic manipulates (tile indices, grid coordinates, array lengths)
    are integers and are modelled as [Z]; the two places where fractional
    numbers matter (the shape checks of [init] and [Math.random]) use [Q].
    Arrays are lists, indexed with stdpp's lookup.  The scene graph
    (transforms, materials, shapes) is the visual side of the module and is
    not part of the model; of the engine only the [alive] flag of the void
    tile is kept, because [voidTileVisibility] reads and toggles it. *)

From Stdlib Require Import ZArith QArith Qround Lia.
From Stdlib Require Import Ascii String DecimalString DecimalZ.
From stdpp Require Import base decidable list list_numbers sorting strings.

Local Open Scope Z_scope.

(** ** JavaScript primitives used by the source *)

(** [a % b] on integers: the remainder has the sign of the dividend. *)
Definition js_rem (a b : Z) : Z := Z.rem a b.

(** [Math.floor(a / b)] on integers. *)
Definition js_floor_div (a b : Z) : Z := a / b.

(** [arr.indexOf(n)]: first position holding [n], or [-1]. *)
Fixpoint indexOf (arr : list Z) (n : Z) : Z :=
  match arr with
  | [] => -1
  | v :: rest =>
      if bool_decide (v = n) then 0
      else let r := indexOf rest n in
           if bool_decide (r < 0) then -1 else r + 1
  end.

(** [arr.slice(0, e)]: a negative [e] counts from the end, and the bound
    is clamped to the array. *)
Definition slice0 {A} (arr : list A) (e : Z) : list A :=
  let len := Z.of_nat (length arr) in
  let k := if bool_decide (e < 0) then Z.max (len + e) 0 else Z.min e len in
  take (Z.to_nat k) arr.

(** [arr.reduce((pv, cv) => pv + cv, 0)]. *)
Definition reduce_add (arr : list Z) : Z := foldl Z.add 0 arr.

(** ** Vector2 (grid positions and the puzzle shape): x = row, y = column *)

Module Vector2.
Record t : Type := New { x : Z; y : Z }.

#[global] Instance eq_dec : EqDecision t.
Proof. solve_decision. Defined.

Definition subtract (a b : t) : t := New (x a - x b) (y a - y b).
Definition lengthSquared (a : t) : Z := x a * x a + y a * y a.
Definition clone (a : t) : t := New (x a) (y a).
End Vector2.

Abbreviation Vector2 := Vector2.t.

(** ** The solvability check *)

(** The entry pushed on [permutationArr] for the value [n]. *)
Definition permutationEntry (arr : list Z) (n : Z) : Z :=
  let arrLen :=
    Z.of_nat (length (filter (λ i, i < n) (slice0 arr (indexOf arr n)))) in
  n - arrLen.

(** [permutationSum]: the accumulator of [permutationProof]. *)
Definition permutationSum (arr : list Z) : Z :=
  let voidIndex := Z.of_nat (length arr) - 1 in
  let permutationArr := permutationEntry arr <$> seqZ 1 (voidIndex - 1) in
  reduce_add permutationArr.

Definition permutationProof (puzzleShape : Vector2) (arr : list Z) : bool :=
  let voidIndex := Z.of_nat (length arr) - 1 in
  let permutationSum := permutationSum arr in
  let rowIndex :=
    js_floor_div (indexOf arr voidIndex) (Vector2.y puzzleShape) in
  let rowBottomCnt := Vector2.x puzzleShape - rowIndex in
  if bool_decide (js_rem (Vector2.y puzzleShape) 2 = 1)
  then bool_decide (js_rem permutationSum 2 = 0)
  else bool_decide (js_rem (permutationSum + rowBottomCnt) 2 = 1).

(** The reference notion the check is compared with: the number of
    inversions of a sequence, i.e. of pairs of positions [i < j] whose
    values are in descending order. *)
Fixpoint inversions (l : list Z) : Z :=
  match l with
  | [] => 0
  | a :: rest => Z.of_nat (length (filter (λ b, b < a) rest)) + inversions rest
  end.

(** The arrangement without the void tile. *)
Definition nonVoid (void : Z) (arr : list Z) : list Z :=
  filter (λ v, v ≠ void) arr.

(** ** Array.prototype.toString and sort on integer arrays *)

(** [n.toString()] for an integer [n]: its decimal numeral. *)
Definition number_toString (n : Z) : string :=
  NilEmpty.string_of_int (Z.to_int n).

(** The part of [Array.prototype.join] after the first element. *)
Fixpoint join_rest (l : list string) : string :=
  match l with
  | [] => EmptyString
  | s :: rest => String ","%char (s +:+ join_rest rest)
  end.

(** [arr.toString()]: the elements' strings separated by commas. *)
Definition array_toString (arr : list Z) : string :=
  match number_toString <$> arr with
  | [] => EmptyString
  | s :: rest => s +:+ join_rest rest
  end.

(** [[...arr].sort((n1, n2) => n1 - n2)]: the ascending rearrangement. *)
Definition sort_ascending (arr : list Z) : list Z := merge_sort Z.le arr.

(** [a[i]] for an integer index; [None] stands for [undefined]. *)
Definition array_get {A} (a : list A) (i : Z) : option A :=
  if bool_decide (0 ≤ i) then a !! Z.to_nat i else None.

(** ** Errors and the actions supplied by the caller *)

Inductive Error : Type :=
  | ShapeNotInteger
  | ShapeFaulty
  | TileDistancesFaulty
  | NotAShuffle
  | MissingTileIndices
  | NotSolvable
  | ParentIteration
  | TypeError.

#[global] Instance Error_eq_dec : EqDecision Error.
Proof. solve_decision. Defined.

(** The message each [throw new Error(...)] of the source carries;
    [TypeError] is the engine's error on dereferencing [undefined]. *)
Definition message (e : Error) : string :=
  match e with
  | ShapeNotInteger => "the puzzle shape must contain only integer values"
  | ShapeFaulty => "the puzzle shape is faulty"
  | TileDistancesFaulty => "the puzzle tile distances are faulty"
  | NotAShuffle => "the provided fixed shuffle array does not contain a shuffle"
  | MissingTileIndices =>
      "the provided fixed shuffle array does not contain all required tile indices"
  | NotSolvable =>
      "the provided fixed shuffle array does not provide a solvable shuffle"
  | ParentIteration => "Parent iteration can not be less than 1"
  | TypeError => "TypeError"
  end.

(** [SPGameActions]: the four callbacks.  They are opaque to the game, so
    the model records each invocation; the callbacks are assumed not to
    call back into the game. *)
Inductive Action : Type := Start | Finish | WillMove | WillStall.

#[global] Instance Action_eq_dec : EqDecision Action.
Proof. solve_decision. Defined.

(** ** Tiles and the game object *)

Record SPTile : Type := mkSPTile {
  index : Z;
  gridOrigin : Vector2;
  gridCurrent : Vector2;
}.

#[global] Instance SPTile_eq_dec : EqDecision SPTile.
Proof. solve_decision. Defined.

(** The fields of [SPGame] the game logic reads and writes.  [voidAlive] is
    [voidTile.alive]; [moving] is the tile that carries a
    [MoveTransformComponent] whose completion callback has not run yet;
    [invoked] lists the actions invoked so far, oldest first.
    [fixedShuffleArr] is the very array the caller handed over; the game
    never writes into it, and the caller is taken not to do so either, nor
    to write into the public fields of the game. *)
Record SPGame : Type := mkSPGame {
  tiles : list SPTile;
  isRunning : bool;
  lockedInput : bool;
  puzzleShape : Vector2;
  tileCnt : Z;
  fixedShuffleArr : option (list Z);
  voidAlive : bool;
  moving : option nat;
  invoked : list Action;
}.

Definition set_tiles (v : list SPTile) (g : SPGame) : SPGame :=
  mkSPGame v (isRunning g) (lockedInput g) (puzzleShape g) (tileCnt g)
    (fixedShuffleArr g) (voidAlive g) (moving g) (invoked g).
Definition set_isRunning (v : bool) (g : SPGame) : SPGame :=
  mkSPGame (tiles g) v (lockedInput g) (puzzleShape g) (tileCnt g)
    (fixedShuffleArr g) (voidAlive g) (moving g) (invoked g).
Definition set_lockedInput (v : bool) (g : SPGame) : SPGame :=
  mkSPGame (tiles g) (isRunning g) v (puzzleShape g) (tileCnt g)
    (fixedShuffleArr g) (voidAlive g) (moving g) (invoked g).
Definition set_fixedShuffleArr (v : option (list Z)) (g : SPGame) : SPGame :=
  mkSPGame (tiles g) (isRunning g) (lockedInput g) (puzzleShape g) (tileCnt g)
    v (voidAlive g) (moving g) (invoked g).
Definition set_voidAlive (v : bool) (g : SPGame) : SPGame :=
  mkSPGame (tiles g) (isRunning g) (lockedInput g) (puzzleShape g) (tileCnt g)
    (fixedShuffleArr g) v (moving g) (invoked g).
Definition set_moving (v : option nat) (g : SPGame) : SPGame :=
  mkSPGame (tiles g) (isRunning g) (lockedInput g) (puzzleShape g) (tileCnt g)
    (fixedShuffleArr g) (voidAlive g) v (invoked g).
Definition set_invoked (v : list Action) (g : SPGame) : SPGame :=
  mkSPGame (tiles g) (isRunning g) (lockedInput g) (puzzleShape g) (tileCnt g)
    (fixedShuffleArr g) (voidAlive g) (moving g) v.

Definition set_gridCurrent (v : Vector2) (t : SPTile) : SPTile :=
  mkSPTile (index t) (gridOrigin t) v.

(** ** Methods run on the game object

    A method either returns with the object updated, throws with the
    object as the statements before the [throw] left it, or does not
    return ([getShuffleArray]'s loop, cut off by the fuel). *)
Inductive Outcome (A : Type) : Type :=
  | Returned (a : A) (g : SPGame)
  | Thrown (e : Error) (g : SPGame)
  | Diverged.
Arguments Returned {A} a g.
Arguments Thrown {A} e g.
Arguments Diverged {A}.

Definition M (A : Type) : Type := SPGame → Outcome A.

Definition ret {A} (a : A) : M A := λ g, Returned a g.
Definition bind {A B} (m : M A) (k : A → M B) : M B :=
  λ g, match m g with
       | Returned a g' => k a g'
       | Thrown e g' => Thrown e g'
       | Diverged => Diverged
       end.
Definition throw {A} (e : Error) : M A := λ g, Thrown e g.
Definition get : M SPGame := λ g, Returned g g.
Definition modify (f : SPGame → SPGame) : M unit := λ g, Returned tt (f g).
Definition invoke (a : Action) : M unit :=
  modify (λ g, set_invoked (invoked g ++ [a]) g).
(** Reading a property of something that may be [undefined]. *)
Definition defined {A} (o : option A) : M A :=
  match o with Some a => ret a | None => throw TypeError end.

Notation "'let*' v ':=' m 'in' k" := (bind m (λ v, k))
  (at level 10, v name, m at level 100, k at level 200).
Notation "m ';*' k" := (bind m (λ _, k))
  (at level 100, k at level 200, right associativity).

(** The object a method leaves behind, if it came back at all. *)
Definition after {A} (o : Outcome A) : option SPGame :=
  match o with
  | Returned _ g => Some g
  | Thrown _ g => Some g
  | Diverged => None
  end.

(** Row and column of a one-dimensional index, as computed in [init] and
    [repositionTile]. *)
Definition gridPosition (shape : Vector2) (n : Z) : Vector2 :=
  Vector2.New (js_floor_div n (Vector2.y shape)) (js_rem n (Vector2.y shape)).

(** [this.tiles[this.tileCnt - 1]] *)
Definition voidTile (g : SPGame) : option SPTile :=
  array_get (tiles g) (tileCnt g - 1).

Definition voidTileVisibility (enable : bool) : M unit :=
  let* g := get in
  let* _ := defined (voidTile g) in
  if enable && negb (voidAlive g) then modify (set_voidAlive true)
  else if negb enable && voidAlive g then modify (set_voidAlive false)
  else ret tt.

(** [repositionTile]: only the grid position is modelled, the transform
    of the entity belongs to the scene. *)
Definition repositionTile (shape : Vector2) (tile : SPTile) (newGridIndex : Z)
    : SPTile :=
  set_gridCurrent (gridPosition shape newGridIndex) tile.

Definition checkTilePosition (tile : SPTile) : bool :=
  bool_decide (Vector2.x (gridCurrent tile) = Vector2.x (gridOrigin tile))
  && bool_decide (Vector2.y (gridCurrent tile) = Vector2.y (gridOrigin tile)).

Definition checkAndFinish : M bool :=
  let* g := get in
  let* voidTile := defined (voidTile g) in
  if checkTilePosition voidTile then
    let uncheckedTiles := slice0 (tiles g) (tileCnt g - 2) in
    let result := forallb (λ b, bool_decide (b = true))
                    (checkTilePosition <$> uncheckedTiles) in
    if result then
      invoke Finish ;*
      voidTileVisibility true ;*
      modify (set_isRunning false) ;*
      ret result
    else ret result
  else ret false.

(** [setfixedShuffleArr] *)
Definition setfixedShuffleArr (arr : list Z) : M unit :=
  let* g := get in
  let comperator := seqZ 0 (tileCnt g) in
  let arrSort := sort_ascending arr in
  if bool_decide (array_toString arr = array_toString comperator)
  then throw NotAShuffle
  else if negb (bool_decide (array_toString arrSort = array_toString comperator))
  then throw MissingTileIndices
  else if negb (permutationProof (puzzleShape g) arr)
  then throw NotSolvable
  else modify (set_fixedShuffleArr (Some arr)).

(** ** Random shuffles

    [Math.random] is an oracle: [rnd k] is the value its [k]-th call
    returns while the current event is processed (a number in [0, 1) by
    the contract of [Math.random]). *)

(** [[arr[i], arr[j]] = [arr[j], arr[i]]].  Both indices are inside the
    array whenever the oracle keeps its contract; outside of it the array
    is left as it is. *)
Definition swapItems (arr : list Z) (i j : nat) : list Z :=
  match arr !! i, arr !! j with
  | Some a, Some b => <[j:=a]> (<[i:=b]> arr)
  | _, _ => arr
  end.

(** [Math.floor(Math.random() * (i + 1))] for the [k]-th call. *)
Definition randomIndex (rnd : nat → Q) (k : nat) (i : nat) : Z :=
  Qfloor (rnd k * inject_Z (Z.of_nat i + 1)).

(** The loop of [shuffle], entered with loop variable [i], after [k]
    calls of [Math.random]. *)
Fixpoint shuffleFrom (rnd : nat → Q) (k : nat) (i : nat) (arr : list Z)
    : list Z :=
  match i with
  | O => arr
  | S i' =>
      let j := randomIndex rnd k i in
      let arr' := if bool_decide (0 ≤ j) then swapItems arr i (Z.to_nat j)
                  else arr in
      shuffleFrom rnd (S k) i' arr'
  end.

Definition shuffle (rnd : nat → Q) (k : nat) (arr : list Z) : list Z :=
  shuffleFrom rnd k (length arr - 1) arr.

(** The [while (!isSolvable)] loop of [getShuffleArray]: every round
    refills the array with the origin indices, shuffles it and tests it.
    [fuel] bounds the number of rounds. *)
Fixpoint shuffleUntilSolvable (fuel : nat) (rnd : nat → Q) (k : nat)
    (puzzleShape : Vector2) (tileCnt : Z) : option (list Z) :=
  match fuel with
  | O => None
  | S fuel' =>
      let shuffleArr := shuffle rnd k (seqZ 0 tileCnt) in
      if permutationProof puzzleShape shuffleArr then Some shuffleArr
      else shuffleUntilSolvable fuel' rnd (k + (Z.to_nat tileCnt - 1))
             puzzleShape tileCnt
  end.

(** What [getShuffleArray] hands out: the stored fixed shuffle if there is
    one, else the first solvable random shuffle. *)
Definition shuffleChoice (fuel : nat) (rnd : nat → Q) (g : SPGame)
    : option (list Z) :=
  match fixedShuffleArr g with
  | Some arr => Some arr
  | None => shuffleUntilSolvable fuel rnd 0 (puzzleShape g) (tileCnt g)
  end.

Definition getShuffleArray (fuel : nat) (rnd : nat → Q) : M (list Z) :=
  let* g := get in
  match shuffleChoice fuel rnd g with
  | Some arr => ret arr
  | None => λ _, Diverged
  end.

(** ** The state machine *)

(** [gameTurn]: the clicked tile [t] (its position in [tiles]) starts its
    animation; the swap itself is the callback [moveFinished]. *)
Definition gameTurn (t : nat) : M unit :=
  modify (set_lockedInput true) ;*
  modify (set_moving (Some t)).

Definition gamePlay (fuel : nat) (rnd : nat → Q) (tile : option nat)
    : M unit :=
  let* g := get in
  if negb (isRunning g) then
    invoke Start ;*
    voidTileVisibility false ;*
    let* shuffleArr := getShuffleArray fuel rnd in
    modify (λ g, set_tiles
      ((λ x, repositionTile (puzzleShape g) x (indexOf shuffleArr (index x)))
         <$> tiles g) g) ;*
    modify (set_isRunning true)
  else
    match tile with
    | Some t =>
        if negb (lockedInput g) then
          let* vtComp := defined (voidTile g) in
          let* tComp := defined (tiles g !! t) in
          let vec :=
            Vector2.subtract (gridCurrent vtComp) (gridCurrent tComp) in
          if bool_decide (Vector2.lengthSquared vec = 1) then
            invoke WillMove ;*
            gameTurn t
          else invoke WillStall
        else ret tt
    | None => ret tt
    end.

(** The callback handed to [MoveTransformComponent] in [gameTurn]; the
    engine runs it once, when the animation of the tile has finished. *)
Definition moveFinished : M unit :=
  let* g := get in
  match moving g with
  | None => ret tt
  | Some t =>
      modify (set_moving None) ;*
      let* tComp := defined (tiles g !! t) in
      let* vtComp := defined (voidTile g) in
      let tTemp := Vector2.clone (gridCurrent tComp) in
      modify (λ g, set_tiles
        (<[t := set_gridCurrent (Vector2.clone (gridCurrent vtComp)) tComp]>
           (tiles g)) g) ;*
      modify (λ g, set_tiles
        (alter (set_gridCurrent tTemp) (Z.to_nat (tileCnt g - 1)) (tiles g))
        g) ;*
      let* _ := checkAndFinish in
      modify (set_lockedInput false)
  end.

Definition reShuffle (fuel : nat) (rnd : nat → Q)
    (fixedShuffleArr : option (list Z)) : M unit :=
  modify (set_isRunning false) ;*
  match fixedShuffleArr with
  | Some arr => setfixedShuffleArr arr
  | None => modify (set_fixedShuffleArr None)
  end ;*
  gamePlay fuel rnd None.

Definition resolve : M unit :=
  modify (set_isRunning false) ;*
  modify (λ g, set_tiles
    ((λ x, repositionTile (puzzleShape g) x (index x)) <$> tiles g) g) ;*
  voidTileVisibility true.

(** [tileParentClick] and [tileChildClick]: [hit] is the tile the click
    resolved to, if any. *)
Definition tileParentClick (fuel : nat) (rnd : nat → Q) (hit : option nat)
    : M unit :=
  gamePlay fuel rnd hit.

Definition tileChildClick (fuel : nat) (rnd : nat → Q) (hit : option nat)
    : M unit :=
  match hit with
  | Some parent => gamePlay fuel rnd (Some parent)
  | None => ret tt
  end.

(** ** Construction *)

(** [q % 1] on a rational: what is left after truncating towards zero. *)
Definition js_rem1 (q : Q) : Q :=
  (q - inject_Z (Z.quot (Qnum q) (Z.pos (Qden q))))%Q.

Definition Qlt_bool (a b : Q) : bool := negb (Qle_bool b a).

(** The three checks at the head of [init], on the numbers as given
    (shape [sx] x [sy], tile distance [dx], [dy]). *)
Definition init_checks (sx sy dx dy : Q) : option Error :=
  if negb (Qeq_bool (js_rem1 (sx + sy)) 0) then Some ShapeNotInteger
  else if Qlt_bool sx 2 || Qlt_bool sy 2 then Some ShapeFaulty
  else if Qle_bool dx 0 || Qle_bool dy 0 then Some TileDistancesFaulty
  else None.

(** [SPSetup], restricted to what the game logic uses; the shape holds
    integers here, see [init_checks] for the checks on arbitrary numbers. *)
Record SPSetup : Type := mkSPSetup {
  setup_puzzleShape : Vector2;
  setup_tileDistance : Q * Q;
  setup_addToEngine : option bool;
  setup_startShuffle : option bool;
  setup_fixedShuffle : option (list Z);
}.

Definition newTile (shape : Vector2) (n : Z) : SPTile :=
  mkSPTile n (gridPosition shape n) (gridPosition shape n).

(** The object before [init] has assigned anything but the two flags. *)
Definition blank (shape : Vector2) : SPGame :=
  mkSPGame [] false false shape (Vector2.x shape * Vector2.y shape)
    None false None [].

Definition init (fuel : nat) (rnd : nat → Q) (setup : SPSetup) : M unit :=
  let shape := setup_puzzleShape setup in
  match init_checks (inject_Z (Vector2.x shape)) (inject_Z (Vector2.y shape))
          (fst (setup_tileDistance setup)) (snd (setup_tileDistance setup)) with
  | Some e => throw e
  | None =>
      match setup_fixedShuffle setup with
      | Some arr => setfixedShuffleArr arr
      | None => ret tt
      end ;*
      modify (λ g, set_tiles (newTile shape <$> seqZ 0 (tileCnt g)) g) ;*
      (if default false (setup_startShuffle setup)
       then gamePlay fuel rnd None else ret tt) ;*
      (* engine.addEntity(this.puzzle) adds the tiles, its children *)
      (if default true (setup_addToEngine setup)
       then modify (set_voidAlive true) else ret tt)
  end.

Definition construct (fuel : nat) (rnd : nat → Q) (setup : SPSetup)
    : Outcome unit :=
  init fuel rnd setup (blank (setup_puzzleShape setup)).

(** ** What can happen to a constructed game *)

Inductive Event : Type :=
  | ParentClick (hit : option nat) (rnd : nat → Q)
  | ChildClick (hit : option nat) (rnd : nat → Q)
  | AnimationDone
  | CallReShuffle (arr : option (list Z)) (rnd : nat → Q)
  | CallResolve.

Definition handle (fuel : nat) (ev : Event) : M unit :=
  match ev with
  | ParentClick hit rnd => tileParentClick fuel rnd hit
  | ChildClick hit rnd => tileChildClick fuel rnd hit
  | AnimationDone => moveFinished
  | CallReShuffle arr rnd => reShuffle fuel rnd arr
  | CallResolve => resolve
  end.

(** The states a game goes through: the constructed one, and the one
    each event leaves (also when the method threw). *)
Inductive reachable : SPGame → Prop :=
  | reachable_construct fuel rnd setup g :
      construct fuel rnd setup = Returned tt g → reachable g
  | reachable_handle fuel ev g g' :
      reachable g → after (handle fuel ev g) = Some g' → reachable g'.

(** ** Notions used in the statements *)

(** The sum of a list of integers. *)
Definition sumZ (l : list Z) : Z := foldr Z.add 0 l.

(** Number of smaller values placed after the first occurrence of [v]. *)
Definition smallerAfter (l : list Z) (v : Z) : Z :=
  Z.of_nat (length (filter (λ i, i < v) (drop (S (Z.to_nat (indexOf l v))) l))).

(** No character of the string is the separator of [join]. *)
Fixpoint comma_free (s : string) : Prop :=
  match s with
  | EmptyString => True
  | String c s' => c ≠ ","%char ∧ comma_free s'
  end.

(** Empty, or starting with the separator. *)
Definition sep_headed (s : string) : Prop :=
  match s with
  | EmptyString => True
  | String c _ => c = ","%char
  end.

(** The game after a detected completion. *)
Definition finished (g : SPGame) : SPGame :=
  set_isRunning false
    (set_voidAlive true (set_invoked (invoked g ++ [Finish]) g)).

(** The game after a (re)start with the arrangement [shuffleArr]. *)
Definition started (g : SPGame) (shuffleArr : list Z) : SPGame :=
  set_isRunning true
    (set_tiles
       ((λ x, repositionTile (puzzleShape g) x (indexOf shuffleArr (index x)))
          <$> tiles g)
       (set_voidAlive false (set_invoked (invoked g ++ [Start]) g))).

(** The tiles after the callback of [gameTurn] has swapped the grid
    positions of the moved tile and of the void tile. *)
Definition swappedTiles (g : SPGame) (t : nat) (tComp vtComp : SPTile)
    : list SPTile :=
  alter (set_gridCurrent (gridCurrent tComp)) (Z.to_nat (tileCnt g - 1))
    (<[t := set_gridCurrent (gridCurrent vtComp) tComp]> (tiles g)).

(** The shape is at least 2 x 2, tile [n] of the array has index [n] and
    its origin cell, the current cells of the tiles are a rearrangement of
    all cells, and a stored fixed shuffle is a rearrangement of the
    identity. *)
Record grid_inv (g : SPGame) : Prop := mk_grid_inv {
  inv_rows : 2 ≤ Vector2.x (puzzleShape g);
  inv_columns : 2 ≤ Vector2.y (puzzleShape g);
  inv_tileCnt :
    tileCnt g = Vector2.x (puzzleShape g) * Vector2.y (puzzleShape g);
  inv_index : index <$> tiles g = seqZ 0 (tileCnt g);
  inv_origin :
    Forall (λ t, gridOrigin t = gridPosition (puzzleShape g) (index t))
      (tiles g);
  inv_current :
    gridCurrent <$> tiles g
    ≡ₚ gridPosition (puzzleShape g) <$> seqZ 0 (tileCnt g);
  inv_fixed :
    ∀ arr, fixedShuffleArr g = Some arr → arr ≡ₚ seqZ 0 (tileCnt g);
}.

(** An oracle for [Math.random] that always answers 0. *)
Definition noRandom : nat → Q := λ _, 0%Q.

(** The setup of the README's example, without [startShuffle]. *)
Definition example_setup : SPSetup :=
  mkSPSetup (Vector2.New 2 3) (51 # 50, 51 # 50)%Q None None
    (Some [0; 1; 2; 3; 5; 4]).

(** The game an outcome leaves behind. *)
Definition game_of (o : Outcome unit) : SPGame :=
  match o with
  | Returned _ g => g
  | Thrown _ g => g
  | Diverged => blank (Vector2.New 0 0)
  end.

(** Freshly constructed. *)
Definition example_new : SPGame :=
  Eval vm_compute in game_of (construct 0 noRandom example_setup).

(** Started by a first click: tile 4 and the void tile 5 have changed
    places. *)
Definition example_running : SPGame :=
  Eval vm_compute in game_of (handle 0 (ParentClick None noRandom) example_new).

(** After a click on tile 4, which is next to the void tile. *)
Definition example_moving : SPGame :=
  Eval vm_compute in
    game_of (handle 0 (ParentClick (Some 4%nat) noRandom) example_running).

(** A run of events, each leaving the game in some state. *)
Inductive run_events : SPGame → list Event → SPGame → Prop :=
  | run_events_nil g : run_events g [] g
  | run_events_cons fuel ev evs g g1 g2 :
      after (handle fuel ev g) = Some g1 → run_events g1 evs g2 →
      run_events g (ev :: evs) g2.

(** The event is a call of [reShuffle]. *)
Definition isReShuffle (ev : Event) : Prop :=
  match ev with CallReShuffle _ _ => True | _ => False end.

(** The [n]-th random shuffle tried by [getShuffleArray] (counting from
    0): each try consumes [tileCnt - 1] values of the oracle. *)
Definition attempt (rnd : nat → Q) (tileCnt : Z) (n : nat) : list Z :=
  shuffle rnd (n * (Z.to_nat tileCnt - 1)) (seqZ 0 tileCnt).

(** [n] is the first try that the solvability check accepts. *)
Definition firstSolvable (rnd : nat → Q) (shape : Vector2) (tileCnt : Z)
    (n : nat) : Prop :=
  permutationProof shape (attempt rnd tileCnt n) = true ∧
  ∀ m, (m < n)%nat → permutationProof shape (attempt rnd tileCnt m) = false.

(** ** Further code of the module *)

Section SceneGraph.
Context {Entity : Type}.

(** [ent.getParent()]; [None] stands for [null]. *)
Variable parentOf : Entity → option Entity.

(** [getParent(ent, iteration)]: the [iteration]-th ancestor of [ent];
    [curParent?.getParent()] is the bind of [option]. *)
Definition getParent (ent : Entity) (iteration : Z)
    : Error + option Entity :=
  if bool_decide (iteration < 1) then inl ParentIteration
  else inr (Nat.iter (Z.to_nat (iteration - 1))
              (λ curParent, curParent ≫= parentOf) (parentOf ent)).

End SceneGraph.

(** [AssetFileType] and the name [AssetFileType[assetType]] gives. *)
Inductive AssetFileType : Type := glTF | glb.

Definition AssetFileType_name (t : AssetFileType) : string :=
  match t with glTF => "glTF" | glb => "glb" end.

(** The file [setupWithAssets] loads for tile [num]:
    [`${assetRoot}${num}.${AssetFileType[assetType]}`]. *)
Definition assetFile (assetRoot : string) (num : Z) (assetType : AssetFileType)
    : string :=
  assetRoot +:+ number_toString num
    +:+ String "."%char (AssetFileType_name assetType).

(** The input is locked exactly while a move is in flight, and the tile
    in flight is one of the game's. *)
Definition move_inv (g : SPGame) : Prop :=
  (lockedInput g = true ↔ is_Some (moving g)) ∧
  ∀ t, moving g = Some t → (t < length (tiles g))%nat.

(** An oracle within the contract of [Math.random] that makes the first
    shuffle of [getShuffleArray] exchange every item with itself: its
    [k]-th answer is [i / (i + 1)] for the value [i] of the loop variable
    at that call. *)
Definition keepingOracle (tileCnt : Z) : nat → Q :=
  λ k, let i := (Z.to_nat tileCnt - 1 - k)%nat in
       (Z.of_nat i # Pos.of_nat (S i))%Q.

(** A freshly constructed 2 x 2 game without a fixed shuffle. *)
Definition example_random : SPGame :=
  Eval vm_compute in
    game_of (construct 0 noRandom
               (mkSPSetup (Vector2.New 2 2) (1, 1)%Q None None None)).

(** [g'] has the shape, the tile count and, tile by tile, the indices and
    the origin cells of [g]. *)
Definition sameTiles (g g' : SPGame) : Prop :=
  puzzleShape g' = puzzleShape g ∧ tileCnt g' = tileCnt g ∧
  index <$> tiles g' = index <$> tiles g ∧
  gridOrigin <$> tiles g' = gridOrigin <$> tiles g.

(** The click of the event, if it is one that resolved to a tile,
    resolved to a tile of the game. *)
Definition onTile (ev : Event) (g : SPGame) : Prop :=
  match ev with
  | ParentClick (Some t) _ | ChildClick (Some t) _ => is_Some (tiles g !! t)
  | _ => True
  end.

(** No character of the string is a dot. *)
Fixpoint dot_free (s : string) : Prop :=
  match s with
  | EmptyString => True
  | String c s' => c ≠ "."%char ∧ dot_free s'
  end.

(** * Properties *)

(** ** Arithmetic and array helpers *)

Lemma foldl_add_sumZ (l : list Z) (a : Z) : foldl Z.add a l = a + sumZ l.
Proof.
  revert a. induction l as [|v l IH]; intros a; simpl; [lia|].
  rewrite IH. unfold sumZ. simpl. lia.
Qed.

Lemma reduce_add_sumZ (l : list Z) : reduce_add l = sumZ l.
Proof. unfold reduce_add. rewrite foldl_add_sumZ. lia. Qed.

Lemma sumZ_Permutation (l k : list Z) : l ≡ₚ k → sumZ l = sumZ k.
Proof.
  induction 1 as [|v l k _ IH|v w l|l k m _ IH1 _ IH2];
    unfold sumZ in *; simpl; lia.
Qed.

Lemma sumZ_fmap_ext (f g : Z → Z) (l : list Z) :
  (∀ v, v ∈ l → f v = g v) → sumZ (f <$> l) = sumZ (g <$> l).
Proof.
  intros Hfg. f_equal. apply list_fmap_ext. intros i v Hv.
  apply Hfg. by eapply list_elem_of_lookup_2.
Qed.

Lemma filter_all {A} (P : A → Prop) `{∀ a, Decision (P a)} (l : list A) :
  Forall P l → filter P l = l.
Proof.
  induction 1 as [|a l Ha _ IH]; [done|].
  by rewrite filter_cons_True, IH.
Qed.

Lemma filter_none {A} (P : A → Prop) `{∀ a, Decision (P a)} (l : list A) :
  Forall (λ a, ¬ P a) l → filter P l = [].
Proof.
  induction 1 as [|a l Ha _ IH]; [done|].
  by rewrite filter_cons_False.
Qed.

Lemma indexOf_lower (arr : list Z) (n : Z) : -1 ≤ indexOf arr n.
Proof.
  induction arr as [|v arr IH]; simpl; [lia|].
  repeat case_bool_decide; lia.
Qed.

Lemma indexOf_absent (arr : list Z) (n : Z) : n ∉ arr → indexOf arr n = -1.
Proof.
  induction arr as [|v arr IH]; simpl; [done|].
  rewrite not_elem_of_cons. intros [Hne Hnot].
  rewrite bool_decide_eq_false_2 by congruence.
  rewrite IH by done. done.
Qed.

Lemma indexOf_split (pre post : list Z) (n : Z) :
  n ∉ pre → indexOf (pre ++ n :: post) n = Z.of_nat (length pre).
Proof.
  induction pre as [|v pre IH]; simpl.
  - intros _. by rewrite bool_decide_eq_true_2.
  - rewrite not_elem_of_cons. intros [Hne Hnot].
    rewrite bool_decide_eq_false_2 by congruence.
    rewrite IH by done.
    rewrite bool_decide_eq_false_2 by lia. lia.
Qed.

Lemma indexOf_lookup (arr : list Z) (n : Z) (p : nat) :
  NoDup arr → arr !! p = Some n → indexOf arr n = Z.of_nat p.
Proof.
  intros Hnd Hp.
  rewrite <- (take_drop_middle arr p n Hp) in Hnd |- *.
  rewrite indexOf_split.
  - rewrite length_take. apply lookup_lt_Some in Hp. lia.
  - apply NoDup_app in Hnd as (_ & Hdisj & _).
    intros Hin. apply (Hdisj _ Hin). left.
Qed.

Lemma slice0_indexOf (pre post : list Z) (n : Z) :
  n ∉ pre → slice0 (pre ++ n :: post) (indexOf (pre ++ n :: post) n) = pre.
Proof.
  intros Hnot. rewrite indexOf_split by done. unfold slice0.
  rewrite bool_decide_eq_false_2 by lia.
  rewrite length_app. simpl.
  replace (Z.to_nat _) with (length pre) by lia.
  apply take_app_length.
Qed.

(** ** The accumulator of [permutationProof] counts inversions *)

Lemma indexOf_present (l : list Z) (v : Z) : v ∈ l → 0 ≤ indexOf l v.
Proof.
  intros Hin. apply list_elem_of_split_l in Hin as (pre & post & -> & Hnot).
  rewrite indexOf_split by done. lia.
Qed.

Lemma smallerAfter_head (h : Z) (t : list Z) :
  smallerAfter (h :: t) h = Z.of_nat (length (filter (λ i, i < h) t)).
Proof. unfold smallerAfter. simpl. by rewrite bool_decide_eq_true_2. Qed.

Lemma smallerAfter_tail (h v : Z) (t : list Z) :
  v ∈ t → v ≠ h → smallerAfter (h :: t) v = smallerAfter t v.
Proof.
  intros Hin Hne. apply indexOf_present in Hin.
  unfold smallerAfter. simpl.
  rewrite bool_decide_eq_false_2 by congruence.
  rewrite bool_decide_eq_false_2 by lia.
  replace (Z.to_nat (indexOf t v + 1)) with (S (Z.to_nat (indexOf t v))) by lia.
  done.
Qed.

(** Summing [smallerAfter] over the non-void values counts the inversions
    among them, as long as the void value is the largest one. *)
Lemma smallerAfter_sum (V : Z) (l : list Z) :
  NoDup l → Forall (λ v, v ≤ V) l →
  sumZ (smallerAfter l <$> nonVoid V l) = inversions (nonVoid V l).
Proof.
  induction l as [|h t IH]; [done|].
  rewrite NoDup_cons, Forall_cons. intros [Hh Hnd] [HhV Hall].
  assert (Htail : sumZ (smallerAfter (h :: t) <$> nonVoid V t)
                  = inversions (nonVoid V t)).
  { rewrite <- IH by done. apply sumZ_fmap_ext. intros v Hv.
    apply list_elem_of_filter in Hv as [_ Hv].
    apply smallerAfter_tail; [done|]. intros ->. done. }
  unfold nonVoid in *. rewrite filter_cons. case_decide as HV.
  - rewrite fmap_cons. unfold sumZ in *. simpl. rewrite Htail.
    rewrite smallerAfter_head. f_equal. f_equal. f_equal.
    rewrite list_filter_filter. apply list_filter_iff. intros b. lia.
  - apply Htail.
Qed.

Section Solvability.
Variable N : Z.
Variable arr : list Z.
Hypothesis N_pos : 1 ≤ N.
Hypothesis arr_perm : arr ≡ₚ seqZ 0 N.

Lemma arr_length : Z.of_nat (length arr) = N.
Proof using N_pos arr_perm. rewrite arr_perm, length_seqZ. lia. Qed.

Lemma arr_NoDup : NoDup arr.
Proof using arr_perm. rewrite arr_perm. apply NoDup_seqZ. Qed.

Lemma arr_range (v : Z) : v ∈ arr ↔ 0 ≤ v < N.
Proof using arr_perm. rewrite arr_perm, elem_of_seqZ. lia. Qed.

(** [arr] holds exactly [n] values below [n]. *)
Lemma count_below (n : Z) :
  0 ≤ n ≤ N → Z.of_nat (length (filter (λ i, i < n) arr)) = n.
Proof using arr_perm.
  intros Hn. rewrite arr_perm.
  replace N with (n + (N - n)) by lia.
  rewrite seqZ_app, filter_app by lia.
  rewrite filter_all, filter_none.
  - rewrite length_app, length_seqZ. simpl. lia.
  - apply Forall_forall. intros v. rewrite elem_of_seqZ. lia.
  - apply Forall_forall. intros v. rewrite elem_of_seqZ. lia.
Qed.

(** What the source pushes for [v] is the number of smaller values that
    come after [v]. *)
Lemma permutationEntry_smallerAfter (v : Z) :
  0 ≤ v < N → permutationEntry arr v = smallerAfter arr v.
Proof using arr_perm.
  intros Hv. pose proof (count_below v ltac:(lia)) as Hcnt.
  assert (Hin : v ∈ arr) by by apply arr_range.
  apply list_elem_of_split_l in Hin as (pre & post & Heq & Hnot).
  rewrite Heq in Hcnt |- *. unfold permutationEntry, smallerAfter.
  rewrite slice0_indexOf, indexOf_split by done.
  rewrite filter_app, filter_cons_False, length_app in Hcnt by lia.
  rewrite Nat2Z.id, (cons_middle v), app_assoc.
  rewrite drop_app_length' by (rewrite length_app; simpl; lia).
  lia.
Qed.

Lemma nonVoid_perm : nonVoid (N - 1) arr ≡ₚ seqZ 0 (N - 1).
Proof using N_pos arr_perm.
  unfold nonVoid. rewrite arr_perm.
  assert (seqZ 0 N = seqZ 0 (N - 1) ++ seqZ (0 + (N - 1)) 1) as ->.
  { rewrite <- seqZ_app by lia. f_equal. lia. }
  rewrite filter_app, filter_all, filter_none.
  - by rewrite app_nil_r.
  - apply Forall_forall. intros v. rewrite elem_of_seqZ. lia.
  - apply Forall_forall. intros v. rewrite elem_of_seqZ. lia.
Qed.

Lemma permutationEntry_zero : permutationEntry arr 0 = 0.
Proof using arr_perm.
  unfold permutationEntry. rewrite filter_none; [done|].
  apply Forall_forall. intros v Hv.
  assert (v ∈ arr) as Hin%arr_range; [|lia].
  unfold slice0 in Hv. apply elem_of_take in Hv as (i & Hi & _).
  by eapply list_elem_of_lookup_2.
Qed.

(** The accumulator is the inversion count of the non-void tiles. *)
Lemma permutationSum_inversions :
  permutationSum arr = inversions (nonVoid (N - 1) arr).
Proof using N_pos arr_perm.
  unfold permutationSum. rewrite arr_length, reduce_add_sumZ.
  rewrite <- smallerAfter_sum.
  - transitivity (sumZ (permutationEntry arr <$> seqZ 0 (N - 1))).
    { destruct (decide (N = 1)) as [->|HN]; [done|].
      rewrite (seqZ_cons 0) by lia. rewrite fmap_cons. unfold sumZ. simpl.
      rewrite permutationEntry_zero.
      replace (Z.pred (N - 1)) with (N - 1 - 1) by lia. done. }
    transitivity (sumZ (smallerAfter arr <$> seqZ 0 (N - 1))).
    { apply sumZ_fmap_ext. intros v. rewrite elem_of_seqZ. intros Hv.
      apply permutationEntry_smallerAfter. lia. }
    apply sumZ_Permutation, fmap_Permutation. symmetry. apply nonVoid_perm.
  - apply arr_NoDup.
  - apply Forall_forall. intros v Hv%arr_range. lia.
Qed.
End Solvability.

Lemma inversions_nonneg (l : list Z) : 0 ≤ inversions l.
Proof. induction l as [|a l IH]; simpl; lia. Qed.

Lemma js_rem_2_even (v : Z) : 0 ≤ v → js_rem v 2 = 0 ↔ Z.even v = true.
Proof.
  intros Hv. unfold js_rem. rewrite Z.rem_mod_nonneg by lia.
  rewrite Z.even_spec. unfold Z.Even. split.
  - intros Hm. exists (v / 2). Z.to_euclidean_division_equations. lia.
  - intros [m ->]. Z.to_euclidean_division_equations. lia.
Qed.

Lemma js_rem_2_odd (v : Z) : 0 ≤ v → js_rem v 2 = 1 ↔ Z.odd v = true.
Proof.
  intros Hv. unfold js_rem. rewrite Z.rem_mod_nonneg by lia.
  rewrite Z.odd_spec. unfold Z.Odd. split.
  - intros Hm. exists (v / 2). Z.to_euclidean_division_equations. lia.
  - intros [m ->]. Z.to_euclidean_division_equations. lia.
Qed.

(** C1. For a puzzle of at least 2 x 2 and an arrangement that is a
    permutation of [0, rows*columns), the accumulator of [permutationProof]
    has the parity of the number of inversions among the non-void tiles,
    and the check answers true exactly when either the column count is odd
    and that inversion count is even, or the column count is even and the
    inversion count plus the void tile's row counted from the bottom
    ([rows - floor(positionOfVoid / columns)]) is odd. *)
Theorem permutationProof_inversion_parity
    (rows columns : Z) (arr : list Z) (positionOfVoid : nat) :
  2 ≤ rows → 2 ≤ columns →
  arr ≡ₚ seqZ 0 (rows * columns) →
  arr !! positionOfVoid = Some (rows * columns - 1) →
  let inv := inversions (nonVoid (rows * columns - 1) arr) in
  let rowOfVoidFromBottom := rows - Z.of_nat positionOfVoid / columns in
  Z.odd (permutationSum arr) = Z.odd inv ∧
  (permutationProof (Vector2.New rows columns) arr = true ↔
     (Z.odd columns = true ∧ Z.even inv = true) ∨
     (Z.even columns = true ∧ Z.odd (inv + rowOfVoidFromBottom) = true)).
Proof.
  intros Hrows Hcols Hperm Hvoid inv rowOfVoidFromBottom.
  assert (HN : 1 ≤ rows * columns) by nia.
  pose proof (permutationSum_inversions _ _ HN Hperm) as Hsum.
  fold inv in Hsum. split; [by rewrite Hsum|].
  unfold permutationProof. rewrite Hsum. simpl.
  rewrite (arr_length _ _ HN Hperm).
  rewrite (indexOf_lookup _ _ _ (arr_NoDup _ _ Hperm) Hvoid).
  unfold js_floor_div. fold rowOfVoidFromBottom.
  pose proof (inversions_nonneg (nonVoid (rows * columns - 1) arr)) as Hinv.
  fold inv in Hinv.
  assert (Hrow : 1 ≤ rowOfVoidFromBottom).
  { apply lookup_lt_Some in Hvoid.
    pose proof (arr_length _ _ HN Hperm) as Hlen.
    assert (Z.of_nat positionOfVoid / columns < rows); [|unfold rowOfVoidFromBottom; lia].
    apply Z.div_lt_upper_bound; lia. }
  rewrite <- (Z.negb_odd columns).
  case_bool_decide as Hc.
  - apply js_rem_2_odd in Hc; [|lia]. rewrite Hc, bool_decide_eq_true.
    rewrite js_rem_2_even by done. simpl. intuition congruence.
  - rewrite js_rem_2_odd in Hc by lia. apply not_true_is_false in Hc.
    rewrite Hc, bool_decide_eq_true, js_rem_2_odd by lia. simpl.
    intuition congruence.
Qed.

Lemma permutationProof_inversion_parity_witness :
  permutationProof (Vector2.New 2 3) [0; 1; 2; 3; 5; 4] = true ↔
    (Z.odd 3 = true ∧ Z.even (inversions (nonVoid 5 [0; 1; 2; 3; 5; 4])) = true) ∨
    (Z.even 3 = true ∧
     Z.odd (inversions (nonVoid 5 [0; 1; 2; 3; 5; 4]) + (2 - 4 / 3)) = true).
Proof.
  refine (proj2 (permutationProof_inversion_parity 2 3 [0; 1; 2; 3; 5; 4] 4%nat
                   _ _ _ _)); [lia | lia | | reflexivity].
  change (seqZ 0 (2 * 3)) with [0; 1; 2; 3; 4; 5].
  do 4 apply perm_skip. apply perm_swap.
Defined.

(** ** [toString] tells integer arrays apart *)

Lemma comma_free_uint (d : Decimal.uint) :
  comma_free (NilEmpty.string_of_uint d).
Proof. induction d; simpl; (split; [discriminate|done]) || done. Qed.

Lemma comma_free_number (n : Z) : comma_free (number_toString n).
Proof.
  unfold number_toString. destruct (Z.to_int n); simpl.
  - apply comma_free_uint.
  - split; [discriminate|apply comma_free_uint].
Qed.

Lemma number_toString_nonempty (n : Z) : number_toString n ≠ EmptyString.
Proof.
  unfold number_toString. destruct n as [|p|p]; simpl; [done| |done].
  pose proof (DecimalPos.Unsigned.to_uint_nonnil p) as Hp.
  destruct (Pos.to_uint p); done.
Qed.

Lemma number_toString_inj (a b : Z) :
  number_toString a = number_toString b → a = b.
Proof.
  unfold number_toString. intros Heq.
  apply (f_equal NilEmpty.int_of_string) in Heq.
  rewrite !NilEmpty.isi in Heq. injection Heq as Heq.
  by apply DecimalZ.to_int_inj.
Qed.

Lemma append_empty (s : string) : EmptyString +:+ s = s.
Proof. reflexivity. Qed.

Lemma append_String (c : ascii) (s r : string) :
  String c s +:+ r = String c (s +:+ r).
Proof. reflexivity. Qed.

#[local] Instance number_toString_Inj : Inj (=) (=) number_toString.
Proof. intros a b. apply number_toString_inj. Qed.

Lemma split_at_separator (s1 s2 r1 r2 : string) :
  comma_free s1 → comma_free s2 → sep_headed r1 → sep_headed r2 →
  s1 +:+ r1 = s2 +:+ r2 → s1 = s2 ∧ r1 = r2.
Proof.
  revert s2. induction s1 as [|a s1 IH]; intros [|b s2]; simpl;
    rewrite ?append_empty, ?append_String.
  - done.
  - intros _ [Hb _] Hr1 _ ->. simpl in Hr1. done.
  - intros [Ha _] _ _ Hr2 <-. simpl in Hr2. done.
  - intros [_ H1] [_ H2] Hr1 Hr2 [= -> Heq].
    destruct (IH s2 H1 H2 Hr1 Hr2 Heq) as [-> ->]. done.
Qed.

Lemma sep_headed_join_rest (l : list string) : sep_headed (join_rest l).
Proof. by destruct l. Qed.

Lemma join_rest_inj (l1 l2 : list string) :
  Forall comma_free l1 → Forall comma_free l2 →
  join_rest l1 = join_rest l2 → l1 = l2.
Proof.
  intros H1. revert l2.
  induction H1 as [|s1 l1 Hs1 _ IH]; intros l2 H2; destruct H2 as [|s2 l2 Hs2 H2];
    simpl; try done.
  intros [= Heq].
  apply split_at_separator in Heq as [-> Heq];
    auto using sep_headed_join_rest.
  f_equal. by apply IH.
Qed.

Lemma array_toString_inj (a b : list Z) :
  array_toString a = array_toString b → a = b.
Proof.
  assert (Hfree : ∀ l : list Z, Forall comma_free (number_toString <$> l)).
  { intros l. apply Forall_fmap, Forall_forall. intros n _.
    apply comma_free_number. }
  unfold array_toString.
  destruct a as [|x a], b as [|y b]; simpl; try done.
  - pose proof (number_toString_nonempty y).
    destruct (number_toString y); [done|by rewrite append_String].
  - pose proof (number_toString_nonempty x).
    destruct (number_toString x); [done|by rewrite append_String].
  - intros Heq.
    apply split_at_separator in Heq as [Hxy Heq];
      auto using sep_headed_join_rest, comma_free_number.
    apply number_toString_inj in Hxy as ->.
    apply join_rest_inj in Heq; [|done..].
    f_equal. revert Heq. apply (inj (fmap number_toString)).
Qed.

Lemma array_toString_eq (a b : list Z) :
  bool_decide (array_toString a = array_toString b) = bool_decide (a = b).
Proof.
  apply bool_decide_ext. split; [apply array_toString_inj|by intros ->].
Qed.

(** ** Sorting *)

Lemma seqZ_sorted (m n : Z) : StronglySorted Z.le (seqZ m n).
Proof.
  unfold seqZ. generalize (Z.to_nat n) as k. intros k.
  generalize 0%nat as s. induction k as [|k IH]; intros s; simpl.
  - constructor.
  - constructor; [apply IH|].
    apply Forall_fmap, Forall_forall. intros i Hi%elem_of_seq. simpl. lia.
Qed.

(** The sorted copy is the identity exactly for the rearrangements of the
    identity. *)
Lemma sort_ascending_identity (arr : list Z) (n : Z) :
  sort_ascending arr = seqZ 0 n ↔ arr ≡ₚ seqZ 0 n.
Proof.
  unfold sort_ascending. split.
  - intros <-. symmetry. apply merge_sort_Permutation.
  - intros Hperm. apply (StronglySorted_unique Z.le).
    + apply StronglySorted_merge_sort; apply _.
    + apply seqZ_sorted.
    + by rewrite merge_sort_Permutation.
Qed.

(** ** Validation of a fixed shuffle *)

Lemma setfixedShuffleArr_spec (g : SPGame) (arr : list Z) :
  setfixedShuffleArr arr g =
    if bool_decide (arr = seqZ 0 (tileCnt g)) then Thrown NotAShuffle g
    else if bool_decide (sort_ascending arr ≠ seqZ 0 (tileCnt g))
         then Thrown MissingTileIndices g
    else if bool_decide (permutationProof (puzzleShape g) arr = false)
         then Thrown NotSolvable g
    else Returned tt (set_fixedShuffleArr (Some arr) g).
Proof.
  unfold setfixedShuffleArr, bind, get, throw, modify.
  rewrite !array_toString_eq.
  case_bool_decide; [done|].
  destruct (decide (sort_ascending arr = seqZ 0 (tileCnt g))) as [Hs|Hs].
  - rewrite (bool_decide_eq_true_2 _ Hs).
    rewrite (bool_decide_eq_false_2 (_ ≠ _)) by (intros Hn; by apply Hn).
    simpl. destruct (permutationProof (puzzleShape g) arr); done.
  - rewrite (bool_decide_eq_false_2 _ Hs).
    rewrite (bool_decide_eq_true_2 (_ ≠ _)) by done. done.
Qed.

(** C3. [setfixedShuffleArr] makes three checks in this order, each with
    an error of its own: the candidate is the identity arrangement; the
    sorted candidate is not exactly [0 .. tileCnt-1]; the solvability check
    rejects the candidate.  Only a candidate that passes all three is
    stored, and a throw leaves the game, its stored fixed shuffle
    included, as it was. *)
Theorem setfixedShuffleArr_checks (g : SPGame) (arr : list Z) :
  let identity := seqZ 0 (tileCnt g) in
  setfixedShuffleArr arr g =
    (if bool_decide (arr = identity) then Thrown NotAShuffle g
     else if bool_decide (sort_ascending arr ≠ identity)
          then Thrown MissingTileIndices g
     else if bool_decide (permutationProof (puzzleShape g) arr = false)
          then Thrown NotSolvable g
     else Returned tt (set_fixedShuffleArr (Some arr) g))
  ∧ NoDup [message NotAShuffle; message MissingTileIndices; message NotSolvable]
  ∧ (∀ e g', setfixedShuffleArr arr g = Thrown e g' →
       g' = g ∧ fixedShuffleArr g' = fixedShuffleArr g).
Proof.
  intros identity. split; [apply setfixedShuffleArr_spec|]. split.
  - compute_done.
  - intros e g'. rewrite setfixedShuffleArr_spec.
    repeat case_bool_decide; intros [= _ <-]; done.
Qed.

Example setfixedShuffleArr_accepts :
  setfixedShuffleArr [0; 1; 2; 3; 5; 4] (blank (Vector2.New 2 3))
  = Returned tt
      (set_fixedShuffleArr (Some [0; 1; 2; 3; 5; 4]) (blank (Vector2.New 2 3))).
Proof. vm_compute. reflexivity. Qed.

Example setfixedShuffleArr_identity :
  setfixedShuffleArr [0; 1; 2; 3; 4; 5] (blank (Vector2.New 2 3))
  = Thrown NotAShuffle (blank (Vector2.New 2 3)).
Proof. vm_compute. reflexivity. Qed.

Example setfixedShuffleArr_duplicate :
  setfixedShuffleArr [0; 1; 2; 3; 5; 5] (blank (Vector2.New 2 3))
  = Thrown MissingTileIndices (blank (Vector2.New 2 3)).
Proof. vm_compute. reflexivity. Qed.

Example setfixedShuffleArr_unsolvable :
  setfixedShuffleArr [1; 0; 2; 3; 4; 5] (blank (Vector2.New 2 3))
  = Thrown NotSolvable (blank (Vector2.New 2 3)).
Proof. vm_compute. reflexivity. Qed.

(** ** The checks of [init] *)

Lemma js_rem1_integer (n : Z) : Qeq_bool (js_rem1 (inject_Z n)) 0 = true.
Proof.
  apply Qeq_bool_iff. unfold js_rem1, inject_Z. simpl.
  rewrite Z.quot_1_r. unfold Qeq, Qminus, Qplus, Qopp. simpl. lia.
Qed.

Lemma Qlt_bool_integer (a b : Z) :
  Qlt_bool (inject_Z a) (inject_Z b) = bool_decide (a < b).
Proof.
  unfold Qlt_bool, Qle_bool, inject_Z. simpl. rewrite !Z.mul_1_r.
  case_bool_decide; destruct (Z.leb_spec b a); simpl; done || lia.
Qed.

(** On an integer shape the checks of [init] come down to the two
    bounds. *)
Lemma init_checks_integer (rows columns : Z) (dx dy : Q) :
  init_checks (inject_Z rows) (inject_Z columns) dx dy =
    if bool_decide (rows < 2) || bool_decide (columns < 2) then Some ShapeFaulty
    else if Qle_bool dx 0 || Qle_bool dy 0 then Some TileDistancesFaulty
    else None.
Proof.
  unfold init_checks.
  assert (Hsum : Qeq_bool (js_rem1 (inject_Z rows + inject_Z columns)) 0 = true).
  { rewrite <- (js_rem1_integer (rows + columns)).
    unfold js_rem1, inject_Z, Qplus. simpl. by rewrite !Z.mul_1_r. }
  rewrite Hsum. simpl.
  change 2%Q with (inject_Z 2). by rewrite !Qlt_bool_integer.
Qed.

(** C4, the half that holds: integer components that are both at least 2
    pass the shape checks. *)
Lemma init_checks_valid_shape (rows columns : Z) (dx dy : Q) :
  2 ≤ rows → 2 ≤ columns →
  init_checks (inject_Z rows) (inject_Z columns) dx dy ≠ Some ShapeNotInteger ∧
  init_checks (inject_Z rows) (inject_Z columns) dx dy ≠ Some ShapeFaulty.
Proof.
  intros Hr Hc. rewrite init_checks_integer.
  rewrite !bool_decide_eq_false_2 by lia. simpl.
  destruct (Qle_bool dx 0 || Qle_bool dy 0); done.
Qed.

(** C4, where the code departs from it: the integer test looks at the sum
    of the two components only, so the shape 2.5 x 2.5 (sum 5) passes all
    the checks of [init] although neither component is an integer. *)
Theorem init_checks_fractional_shape :
  init_checks (5 # 2) (5 # 2) 1 1 = None.
Proof. reflexivity. Qed.

(** ** Rearrangements *)

Lemma insert_swap_Permutation {A} (l : list A) (i j : nat) (a b : A) :
  l !! i = Some a → l !! j = Some b → <[j:=a]> (<[i:=b]> l) ≡ₚ l.
Proof.
  intros Hi Hj.
  pose proof (lookup_lt_Some _ _ _ Hi) as Hli.
  pose proof (lookup_lt_Some _ _ _ Hj) as Hlj.
  destruct (decide (i = j)) as [->|Hne].
  { rewrite list_insert_insert_eq. rewrite list_insert_id; [done|congruence]. }
  symmetry. apply Permutation_inj. split; [by rewrite !length_insert|].
  exists (λ k, if decide (k = i) then j else if decide (k = j) then i else k).
  split.
  - intros k1 k2. repeat case_decide; congruence.
  - intros k. repeat case_decide; subst.
    + by rewrite list_lookup_insert_eq by (by rewrite length_insert).
    + rewrite list_lookup_insert_ne by done.
      by rewrite list_lookup_insert_eq.
    + by rewrite !list_lookup_insert_ne by done.
Qed.

Lemma swapItems_Permutation (arr : list Z) (i j : nat) :
  swapItems arr i j ≡ₚ arr.
Proof.
  unfold swapItems.
  destruct (arr !! i) as [a|] eqn:Hi; [|done].
  destruct (arr !! j) as [b|] eqn:Hj; [|done].
  by apply insert_swap_Permutation.
Qed.

Lemma shuffleFrom_Permutation (rnd : nat → Q) (k i : nat) (arr : list Z) :
  shuffleFrom rnd k i arr ≡ₚ arr.
Proof.
  revert k arr. induction i as [|i IH]; intros k arr; simpl; [done|].
  rewrite IH. case_bool_decide; [apply swapItems_Permutation|done].
Qed.

Lemma shuffle_Permutation (rnd : nat → Q) (k : nat) (arr : list Z) :
  shuffle rnd k arr ≡ₚ arr.
Proof. apply shuffleFrom_Permutation. Qed.

(** The loop of [getShuffleArray] only hands out solvable rearrangements
    of the identity. *)
Lemma shuffleUntilSolvable_Some fuel rnd k shape cnt (arr : list Z) :
  shuffleUntilSolvable fuel rnd k shape cnt = Some arr →
  arr ≡ₚ seqZ 0 cnt ∧ permutationProof shape arr = true.
Proof.
  revert k. induction fuel as [|fuel IH]; intros k; simpl; [done|].
  destruct (permutationProof shape (shuffle rnd k (seqZ 0 cnt))) eqn:Hp.
  - intros [= <-]. split; [apply shuffle_Permutation|done].
  - apply IH.
Qed.

(** Where the values of a rearrangement of the identity sit is again a
    rearrangement of the identity. *)
Lemma indexOf_Permutation (arr : list Z) (n : Z) :
  arr ≡ₚ seqZ 0 n → indexOf arr <$> seqZ 0 n ≡ₚ seqZ 0 n.
Proof.
  intros Hperm.
  assert (Hnd : NoDup arr) by (rewrite Hperm; apply NoDup_seqZ).
  assert (Hlen : length arr = Z.to_nat n) by (by rewrite Hperm, length_seqZ).
  assert (Hidx : ∀ v, 0 ≤ v < n →
            ∃ p, arr !! p = Some v ∧ indexOf arr v = Z.of_nat p).
  { intros v Hv. assert (Hin : v ∈ arr) by (rewrite Hperm, elem_of_seqZ; lia).
    apply list_elem_of_lookup in Hin as [p Hp]. exists p.
    split; [done|]. by apply indexOf_lookup. }
  apply NoDup_Permutation.
  - apply NoDup_fmap_2_strong; [|apply NoDup_seqZ].
    intros v w Hv%elem_of_seqZ Hw%elem_of_seqZ Heq.
    destruct (Hidx v) as (p & Hp & Hpv); [lia|].
    destruct (Hidx w) as (q & Hq & Hqw); [lia|].
    assert (p = q) as -> by lia. congruence.
  - apply NoDup_seqZ.
  - intros p. rewrite list_elem_of_fmap, elem_of_seqZ. split.
    + intros (v & -> & Hv%elem_of_seqZ).
      destruct (Hidx v) as (q & Hq & ->); [lia|].
      apply lookup_lt_Some in Hq. lia.
    + intros Hp.
      destruct (lookup_lt_is_Some_2 arr (Z.to_nat p)) as [v Hv]; [lia|].
      exists v. split.
      * rewrite (indexOf_lookup _ _ _ Hnd Hv). lia.
      * apply list_elem_of_lookup_2 in Hv. by rewrite Hperm in Hv.
Qed.

(** ** The grid *)

Lemma gridPosition_inj (shape : Vector2) (m n : Z) :
  0 < Vector2.y shape → 0 ≤ m → 0 ≤ n →
  gridPosition shape m = gridPosition shape n → m = n.
Proof.
  unfold gridPosition, js_floor_div, js_rem. intros Hc Hm Hn [= Hq Hr].
  rewrite !Z.rem_mod_nonneg in Hr by lia.
  rewrite (Z.div_mod m (Vector2.y shape)), (Z.div_mod n (Vector2.y shape))
    by lia.
  by rewrite Hq, Hr.
Qed.

Lemma gridPosition_cell (shape : Vector2) (r c : Z) :
  0 ≤ r → 0 ≤ c < Vector2.y shape →
  gridPosition shape (r * Vector2.y shape + c) = Vector2.New r c.
Proof.
  unfold gridPosition, js_floor_div, js_rem. intros Hr Hc.
  rewrite Z.rem_mod_nonneg by nia. f_equal.
  - rewrite Z.div_add_l, Z.div_small by lia. lia.
  - rewrite Z.add_comm, Z.mod_add, Z.mod_small by lia. done.
Qed.

Lemma gridPosition_range (shape : Vector2) (n : Z) :
  0 < Vector2.y shape → 0 ≤ n < Vector2.x shape * Vector2.y shape →
  0 ≤ Vector2.x (gridPosition shape n) < Vector2.x shape ∧
  0 ≤ Vector2.y (gridPosition shape n) < Vector2.y shape.
Proof.
  unfold gridPosition, js_floor_div, js_rem. simpl. intros Hc Hn.
  rewrite Z.rem_mod_nonneg by lia.
  pose proof (Z.mod_pos_bound n (Vector2.y shape) Hc).
  assert (0 ≤ n / Vector2.y shape) by (apply Z.div_pos; lia).
  assert (n / Vector2.y shape < Vector2.x shape)
    by (apply Z.div_lt_upper_bound; lia).
  lia.
Qed.

(** ** What each method does to the game object *)

Ltac run_method :=
  unfold bind, get, modify, ret, throw, invoke, defined in *; simpl in *.

Lemma clone_id (v : Vector2) : Vector2.clone v = v.
Proof. by destruct v. Qed.

Lemma checkTilePosition_true (t : SPTile) :
  checkTilePosition t = true ↔ gridCurrent t = gridOrigin t.
Proof.
  unfold checkTilePosition. rewrite andb_true_iff, !bool_decide_eq_true.
  destruct (gridCurrent t), (gridOrigin t); simpl. intuition congruence.
Qed.

Lemma every_true (l : list bool) :
  forallb (λ b, bool_decide (b = true)) l = forallb id l.
Proof. induction l as [|[] l IH]; simpl; [done|apply IH|done]. Qed.

Lemma forallb_id_fmap {A} (f : A → bool) (l : list A) :
  forallb id (f <$> l) = forallb f l.
Proof.
  induction l as [|a l IH]; [done|].
  rewrite fmap_cons. cbn [forallb]. by rewrite IH.
Qed.

Lemma voidTileVisibility_spec (enable : bool) (g : SPGame) :
  is_Some (voidTile g) →
  voidTileVisibility enable g = Returned tt (set_voidAlive enable g).
Proof.
  intros [vt Hvt]. unfold voidTileVisibility. run_method. rewrite Hvt.
  destruct g as [? ? ? ? ? ? alive ? ?], enable, alive; done.
Qed.

Lemma checkAndFinish_spec (g : SPGame) (vt : SPTile) :
  voidTile g = Some vt →
  checkAndFinish g =
    let result := checkTilePosition vt
                  && forallb checkTilePosition
                       (slice0 (tiles g) (tileCnt g - 2)) in
    Returned result (if result then finished g else g).
Proof.
  intros Hvt. unfold checkAndFinish. run_method. rewrite Hvt. simpl.
  destruct (checkTilePosition vt); simpl; [|done].
  rewrite every_true, forallb_id_fmap.
  destruct (forallb checkTilePosition _); simpl; [|done].
  unfold bind. rewrite voidTileVisibility_spec; [done|].
  unfold voidTile in *. simpl. by rewrite Hvt.
Qed.

Lemma getShuffleArray_spec (fuel : nat) (rnd : nat → Q) (g : SPGame) :
  getShuffleArray fuel rnd g =
    match shuffleChoice fuel rnd g with
    | Some arr => Returned arr g
    | None => Diverged
    end.
Proof.
  unfold getShuffleArray. run_method.
  by destruct (shuffleChoice fuel rnd g).
Qed.

Lemma gamePlay_start (fuel : nat) (rnd : nat → Q) (tile : option nat)
    (g : SPGame) :
  isRunning g = false → is_Some (voidTile g) →
  gamePlay fuel rnd tile g =
    match shuffleChoice fuel rnd g with
    | Some arr => Returned tt (started g arr)
    | None => Diverged
    end.
Proof.
  intros Hrun Hvt. unfold gamePlay. run_method. rewrite Hrun. simpl.
  unfold bind. rewrite voidTileVisibility_spec by done.
  rewrite getShuffleArray_spec.
  change (shuffleChoice fuel rnd (set_voidAlive false _))
    with (shuffleChoice fuel rnd g).
  by destruct (shuffleChoice fuel rnd g).
Qed.

Lemma gamePlay_click (fuel : nat) (rnd : nat → Q) (t : nat) (g : SPGame)
    (tComp vtComp : SPTile) :
  isRunning g = true → lockedInput g = false →
  tiles g !! t = Some tComp → voidTile g = Some vtComp →
  gamePlay fuel rnd (Some t) g =
    if bool_decide (Vector2.lengthSquared
          (Vector2.subtract (gridCurrent vtComp) (gridCurrent tComp)) = 1)
    then Returned tt
           (set_moving (Some t)
              (set_lockedInput true
                 (set_invoked (invoked g ++ [WillMove]) g)))
    else Returned tt (set_invoked (invoked g ++ [WillStall]) g).
Proof.
  intros Hrun Hlock Ht Hvt. unfold gamePlay, gameTurn. run_method.
  rewrite Hrun, Hlock, Hvt, Ht. simpl.
  by case_bool_decide.
Qed.

Lemma gamePlay_ignored (fuel : nat) (rnd : nat → Q) (tile : option nat)
    (g : SPGame) :
  isRunning g = true → lockedInput g = true ∨ tile = None →
  gamePlay fuel rnd tile g = Returned tt g.
Proof.
  intros Hrun Hcase. unfold gamePlay. run_method. rewrite Hrun. simpl.
  destruct tile as [t|]; [|done].
  destruct Hcase as [->|?]; done.
Qed.

Lemma moveFinished_spec (g : SPGame) (t : nat) (tComp vtComp : SPTile) :
  moving g = Some t → tiles g !! t = Some tComp → voidTile g = Some vtComp →
  1 ≤ tileCnt g →
  moveFinished g =
    match checkAndFinish
            (set_tiles (swappedTiles g t tComp vtComp) (set_moving None g)) with
    | Returned _ g' => Returned tt (set_lockedInput false g')
    | Thrown e g' => Thrown e g'
    | Diverged => Diverged
    end.
Proof.
  intros Hmov Ht Hvt Hcnt. unfold moveFinished. run_method.
  rewrite Hmov, Ht. simpl. rewrite Hvt. simpl.
  rewrite !clone_id. unfold swappedTiles.
  by destruct (checkAndFinish _).
Qed.

Lemma resolve_spec (g : SPGame) :
  is_Some (voidTile g) →
  resolve g =
    Returned tt
      (set_voidAlive true
         (set_tiles
            ((λ x, repositionTile (puzzleShape g) x (index x)) <$> tiles g)
            (set_isRunning false g))).
Proof.
  intros [vt Hvt]. unfold resolve. run_method.
  unfold bind. rewrite voidTileVisibility_spec; [done|].
  unfold voidTile, array_get in *. simpl.
  case_bool_decide; [|done].
  rewrite list_lookup_fmap, Hvt. by eexists.
Qed.

(** ** The invariant of the grid *)

Lemma inv_tileCnt_ge (g : SPGame) : grid_inv g → 4 ≤ tileCnt g.
Proof. intros [Hr Hc Hn _ _ _ _]. nia. Qed.

Lemma inv_length (g : SPGame) :
  grid_inv g → length (tiles g) = Z.to_nat (tileCnt g).
Proof.
  intros Hinv. rewrite <- (length_fmap index), (inv_index g Hinv).
  apply length_seqZ.
Qed.

Lemma inv_lookup (g : SPGame) (i : nat) (t : SPTile) :
  grid_inv g → tiles g !! i = Some t →
  index t = Z.of_nat i ∧
  gridOrigin t = gridPosition (puzzleShape g) (Z.of_nat i).
Proof.
  intros Hinv Ht.
  assert (Hi : index t = Z.of_nat i).
  { pose proof (f_equal (fmap index) Ht) as Hidx.
    rewrite <- list_lookup_fmap, (inv_index g Hinv) in Hidx.
    simpl in Hidx. apply lookup_seqZ in Hidx. lia. }
  split; [done|]. rewrite <- Hi.
  pose proof (inv_origin g Hinv) as Horigin.
  rewrite Forall_forall in Horigin. apply Horigin.
  by eapply list_elem_of_lookup_2.
Qed.

Lemma voidTile_lookup (g : SPGame) :
  1 ≤ tileCnt g → voidTile g = tiles g !! Z.to_nat (tileCnt g - 1).
Proof.
  intros Hn. unfold voidTile, array_get.
  by rewrite bool_decide_eq_true_2 by lia.
Qed.

Lemma inv_voidTile (g : SPGame) : grid_inv g → is_Some (voidTile g).
Proof.
  intros Hinv. pose proof (inv_tileCnt_ge g Hinv).
  rewrite voidTile_lookup by lia. apply lookup_lt_is_Some_2.
  rewrite (inv_length g Hinv). lia.
Qed.

Lemma inv_origins (g : SPGame) :
  grid_inv g →
  gridOrigin <$> tiles g = gridPosition (puzzleShape g) <$> seqZ 0 (tileCnt g).
Proof.
  intros Hinv. rewrite <- (inv_index g Hinv), <- list_fmap_compose.
  apply list_fmap_ext. intros i t Ht. simpl.
  destruct (inv_lookup g i t Hinv Ht) as [-> ->]. done.
Qed.

Lemma cells_NoDup (shape : Vector2) (n : Z) :
  0 < Vector2.y shape → NoDup (gridPosition shape <$> seqZ 0 n).
Proof.
  intros Hc. apply NoDup_fmap_2_strong; [|apply NoDup_seqZ].
  intros a b Ha%elem_of_seqZ Hb%elem_of_seqZ.
  apply gridPosition_inj; lia.
Qed.

Lemma inv_current_NoDup (g : SPGame) :
  grid_inv g → NoDup (gridCurrent <$> tiles g).
Proof.
  intros Hinv. rewrite (inv_current g Hinv). apply cells_NoDup.
  pose proof (inv_columns g Hinv). lia.
Qed.

(** The invariant only looks at the tiles, the shape, the tile count and
    the stored fixed shuffle. *)
Lemma grid_inv_frame (g g' : SPGame) :
  tiles g' = tiles g → puzzleShape g' = puzzleShape g →
  tileCnt g' = tileCnt g → fixedShuffleArr g' = fixedShuffleArr g →
  grid_inv g → grid_inv g'.
Proof.
  intros Ht Hs Hn Hf [H1 H2 H3 H4 H5 H6 H7].
  split; rewrite ?Ht, ?Hs, ?Hn, ?Hf; done.
Qed.

(** Placing every tile on the cell that [f] assigns to its index keeps
    the invariant when [f] rearranges the indices. *)
Lemma grid_inv_reposition (g g' : SPGame) (f : Z → Z) :
  grid_inv g →
  f <$> seqZ 0 (tileCnt g) ≡ₚ seqZ 0 (tileCnt g) →
  tiles g' = (λ x, repositionTile (puzzleShape g) x (f (index x))) <$> tiles g →
  puzzleShape g' = puzzleShape g → tileCnt g' = tileCnt g →
  fixedShuffleArr g' = fixedShuffleArr g →
  grid_inv g'.
Proof.
  intros Hinv Hf Ht Hs Hn Hfix.
  pose proof Hinv as [H1 H2 H3 H4 H5 H6 H7].
  split; rewrite ?Ht, ?Hs, ?Hn, ?Hfix; try done.
  - by rewrite <- list_fmap_compose.
  - apply Forall_fmap. eapply Forall_impl; [exact H5|]. done.
  - rewrite <- list_fmap_compose.
    assert ((gridCurrent ∘ λ x, repositionTile (puzzleShape g) x (f (index x)))
              <$> tiles g
            = gridPosition (puzzleShape g) <$> (f <$> (index <$> tiles g)))
      as ->.
    { rewrite <- !list_fmap_compose. by apply list_fmap_ext. }
    rewrite H4. by apply fmap_Permutation.
Qed.

Lemma grid_inv_started (g : SPGame) (arr : list Z) :
  grid_inv g → arr ≡ₚ seqZ 0 (tileCnt g) → grid_inv (started g arr).
Proof.
  intros Hinv Harr.
  apply (grid_inv_reposition g _ (indexOf arr)); try done.
  by apply indexOf_Permutation.
Qed.

Lemma shuffleChoice_Permutation fuel rnd (g : SPGame) (arr : list Z) :
  grid_inv g → shuffleChoice fuel rnd g = Some arr →
  arr ≡ₚ seqZ 0 (tileCnt g).
Proof.
  intros Hinv. unfold shuffleChoice.
  destruct (fixedShuffleArr g) as [a|] eqn:Hfix.
  - intros [= <-]. by apply (inv_fixed g Hinv).
  - intros Hsome. by apply shuffleUntilSolvable_Some in Hsome as [? _].
Qed.

Lemma grid_inv_gamePlay fuel rnd tile (g g' : SPGame) :
  grid_inv g → after (gamePlay fuel rnd tile g) = Some g' → grid_inv g'.
Proof.
  intros Hinv. destruct (isRunning g) eqn:Hrun.
  - destruct tile as [t|];
      [|rewrite gamePlay_ignored by auto; by intros [= <-]].
    destruct (lockedInput g) eqn:Hlock;
      [rewrite gamePlay_ignored by auto; by intros [= <-]|].
    destruct (inv_voidTile g Hinv) as [vtComp Hvt].
    destruct (tiles g !! t) as [tComp|] eqn:Ht.
    + rewrite (gamePlay_click _ _ _ _ tComp vtComp) by done.
      case_bool_decide; intros [= <-];
        by apply (grid_inv_frame g).
    + unfold gamePlay. run_method. rewrite Hrun, Hlock, Hvt, Ht. simpl.
      by intros [= <-].
  - rewrite gamePlay_start by auto using inv_voidTile.
    destruct (shuffleChoice fuel rnd g) as [arr|] eqn:Harr; [|done].
    intros [= <-]. apply grid_inv_started; [done|].
    by eapply shuffleChoice_Permutation.
Qed.

Lemma swappedTiles_index (g : SPGame) (t : nat) (tComp vtComp : SPTile) :
  tiles g !! t = Some tComp →
  index <$> swappedTiles g t tComp vtComp = index <$> tiles g.
Proof.
  intros Ht. unfold swappedTiles.
  rewrite (list_fmap_alter _ _ id) by (by apply Forall_forall).
  rewrite list_alter_id by done.
  rewrite list_fmap_insert. simpl.
  apply list_insert_id. by rewrite list_lookup_fmap, Ht.
Qed.

Lemma swappedTiles_origin (g : SPGame) (t : nat) (tComp vtComp : SPTile) :
  tiles g !! t = Some tComp →
  gridOrigin <$> swappedTiles g t tComp vtComp = gridOrigin <$> tiles g.
Proof.
  intros Ht. unfold swappedTiles.
  rewrite (list_fmap_alter _ _ id) by (by apply Forall_forall).
  rewrite list_alter_id by done.
  rewrite list_fmap_insert. simpl.
  apply list_insert_id. by rewrite list_lookup_fmap, Ht.
Qed.

Lemma swappedTiles_current (g : SPGame) (t : nat) (tComp vtComp : SPTile) :
  gridCurrent <$> swappedTiles g t tComp vtComp
  = <[Z.to_nat (tileCnt g - 1) := gridCurrent tComp]>
      (<[t := gridCurrent vtComp]> (gridCurrent <$> tiles g)).
Proof.
  unfold swappedTiles.
  rewrite (list_fmap_alter _ _ (λ _, gridCurrent tComp)) by (by apply Forall_forall).
  by rewrite <- list_insert_alter, list_fmap_insert.
Qed.

Lemma swappedTiles_Permutation (g : SPGame) (t : nat) (tComp vtComp : SPTile) :
  tiles g !! t = Some tComp →
  tiles g !! Z.to_nat (tileCnt g - 1) = Some vtComp →
  gridCurrent <$> swappedTiles g t tComp vtComp ≡ₚ gridCurrent <$> tiles g.
Proof.
  intros Ht Hvt. rewrite swappedTiles_current.
  apply insert_swap_Permutation; by rewrite list_lookup_fmap, ?Ht, ?Hvt.
Qed.

Lemma grid_inv_swapped (g g' : SPGame) (t : nat) (tComp vtComp : SPTile) :
  grid_inv g → tiles g !! t = Some tComp → voidTile g = Some vtComp →
  tiles g' = swappedTiles g t tComp vtComp →
  puzzleShape g' = puzzleShape g → tileCnt g' = tileCnt g →
  fixedShuffleArr g' = fixedShuffleArr g →
  grid_inv g'.
Proof.
  intros Hinv Ht Hvt Htiles Hs Hn Hfix.
  pose proof (inv_tileCnt_ge g Hinv).
  rewrite voidTile_lookup in Hvt by lia.
  pose proof (inv_origins g Hinv) as Horigins.
  pose proof Hinv as [H1 H2 H3 H4 H5 H6 H7].
  split; rewrite ?Htiles, ?Hs, ?Hn, ?Hfix; try done.
  - by rewrite swappedTiles_index.
  - apply Forall_forall. intros x Hx.
    apply list_elem_of_lookup in Hx as [i Hi].
    pose proof (f_equal (fmap index) Hi) as Hidx.
    pose proof (f_equal (fmap gridOrigin) Hi) as Hor.
    rewrite <- list_lookup_fmap in Hidx. rewrite <- list_lookup_fmap in Hor.
    rewrite swappedTiles_index in Hidx by done.
    rewrite swappedTiles_origin in Hor by done.
    rewrite list_lookup_fmap in Hidx. rewrite list_lookup_fmap in Hor.
    destruct (tiles g !! i) as [y|] eqn:Hy; [|done].
    simpl in Hidx, Hor. injection Hidx as <-. injection Hor as <-.
    rewrite Forall_forall in H5. apply H5.
    by eapply list_elem_of_lookup_2.
  - by rewrite swappedTiles_Permutation.
Qed.

Lemma grid_inv_checkAndFinish (g g' : SPGame) :
  grid_inv g → after (checkAndFinish g) = Some g' → grid_inv g'.
Proof.
  intros Hinv. destruct (inv_voidTile g Hinv) as [vt Hvt].
  rewrite (checkAndFinish_spec g vt Hvt). simpl.
  destruct (_ && _); intros [= <-]; [|done].
  by apply (grid_inv_frame g).
Qed.

Lemma grid_inv_moveFinished (g g' : SPGame) :
  grid_inv g → after (moveFinished g) = Some g' → grid_inv g'.
Proof.
  intros Hinv. pose proof (inv_tileCnt_ge g Hinv).
  destruct (moving g) as [t|] eqn:Hmov.
  - destruct (inv_voidTile g Hinv) as [vtComp Hvt].
    destruct (tiles g !! t) as [tComp|] eqn:Ht.
    + rewrite (moveFinished_spec g t tComp vtComp) by (done || lia).
      pose proof (grid_inv_swapped g
        (set_tiles (swappedTiles g t tComp vtComp) (set_moving None g))
        t tComp vtComp Hinv Ht Hvt eq_refl eq_refl eq_refl eq_refl) as Hinv1.
      pose proof (λ g1, grid_inv_checkAndFinish _ g1 Hinv1) as Hcheck.
      destruct (checkAndFinish _) as [b g1|e g1|]; simpl in *; [| |done].
      * intros [= <-]. apply (grid_inv_frame g1); try done. by apply Hcheck.
      * intros [= <-]. by apply Hcheck.
    + unfold moveFinished. run_method. rewrite Hmov, Ht. simpl.
      intros [= <-]. by apply (grid_inv_frame g).
  - unfold moveFinished. run_method. rewrite Hmov. by intros [= <-].
Qed.

Lemma grid_inv_resolve (g g' : SPGame) :
  grid_inv g → after (resolve g) = Some g' → grid_inv g'.
Proof.
  intros Hinv. rewrite resolve_spec by by apply inv_voidTile.
  intros [= <-].
  apply (grid_inv_reposition g _ (λ i, i)); try done.
  by rewrite list_fmap_id.
Qed.

Lemma setfixedShuffleArr_after (g g' : SPGame) (arr : list Z) :
  after (setfixedShuffleArr arr g) = Some g' →
  g' = g ∨ (g' = set_fixedShuffleArr (Some arr) g ∧ arr ≡ₚ seqZ 0 (tileCnt g)).
Proof.
  rewrite setfixedShuffleArr_spec.
  case_bool_decide; [intros [= <-]; by left|].
  case_bool_decide as Hsort; [intros [= <-]; by left|].
  case_bool_decide; intros [= <-]; [by left|right].
  split; [done|]. apply sort_ascending_identity.
  by destruct (decide (sort_ascending arr = seqZ 0 (tileCnt g))).
Qed.

Lemma grid_inv_setfixedShuffleArr (g g' : SPGame) (arr : list Z) :
  grid_inv g → after (setfixedShuffleArr arr g) = Some g' → grid_inv g'.
Proof.
  intros Hinv [->|[-> Harr]]%setfixedShuffleArr_after; [done|].
  pose proof Hinv as [H1 H2 H3 H4 H5 H6 H7].
  split; try done. simpl. by intros a [= <-].
Qed.

Lemma grid_inv_reShuffle fuel rnd arr (g g' : SPGame) :
  grid_inv g → after (reShuffle fuel rnd arr g) = Some g' → grid_inv g'.
Proof.
  intros Hinv. unfold reShuffle. run_method.
  assert (Hinv0 : grid_inv (set_isRunning false g))
    by by apply (grid_inv_frame g).
  destruct arr as [arr|].
  - pose proof (λ g1, grid_inv_setfixedShuffleArr (set_isRunning false g) g1
                        arr Hinv0) as Hset.
    destruct (setfixedShuffleArr arr _) as [[] g1|e g1|]; simpl in *; [| |done].
    + apply grid_inv_gamePlay. by apply Hset.
    + intros [= <-]. by apply Hset.
  - apply grid_inv_gamePlay.
    pose proof Hinv as [H1 H2 H3 H4 H5 H6 H7]. by split.
Qed.

Lemma grid_inv_handle fuel ev (g g' : SPGame) :
  grid_inv g → after (handle fuel ev g) = Some g' → grid_inv g'.
Proof.
  intros Hinv. destruct ev as [hit rnd|[t|] rnd| |arr rnd|]; simpl.
  - apply grid_inv_gamePlay, Hinv.
  - apply grid_inv_gamePlay, Hinv.
  - by intros [= <-].
  - apply grid_inv_moveFinished, Hinv.
  - apply grid_inv_reShuffle, Hinv.
  - apply grid_inv_resolve, Hinv.
Qed.

Lemma grid_inv_construct fuel rnd setup (g : SPGame) :
  construct fuel rnd setup = Returned tt g → grid_inv g.
Proof.
  unfold construct, init. rewrite init_checks_integer.
  set (shape := setup_puzzleShape setup).
  case_bool_decide as Hr; [done|]. case_bool_decide as Hc; [done|]. simpl.
  destruct (_ || _); [done|].
  set (g0 := blank shape).
  assert (Hfixed : ∀ g1, after (match setup_fixedShuffle setup with
                                | Some arr => setfixedShuffleArr arr
                                | None => ret tt
                                end g0) = Some g1 →
            tiles g1 = [] ∧ puzzleShape g1 = shape ∧
            tileCnt g1 = Vector2.x shape * Vector2.y shape ∧
            ∀ a, fixedShuffleArr g1 = Some a → a ≡ₚ seqZ 0 (tileCnt g1)).
  { intros g1. destruct (setup_fixedShuffle setup) as [arr|].
    - intros [->|[-> Harr]]%setfixedShuffleArr_after; simpl; [done|].
      repeat split. by intros a [= <-].
    - intros [= <-]. done. }
  run_method.
  destruct (match setup_fixedShuffle setup with
            | Some arr => setfixedShuffleArr arr
            | None => _ end g0) as [[] g1|e g1|]; [|done..].
  destruct (Hfixed g1 eq_refl) as (Ht & Hs & Hn & Hfix).
  set (g2 := set_tiles (newTile shape <$> seqZ 0 (tileCnt g1)) g1).
  assert (Hinv2 : grid_inv g2).
  { split; simpl; rewrite ?Hs; try done || lia.
    - rewrite <- list_fmap_compose. apply list_fmap_id.
    - apply Forall_fmap, Forall_forall. done.
    - by rewrite <- list_fmap_compose. }
  destruct (default false (setup_startShuffle setup)).
  - pose proof (λ g3, grid_inv_gamePlay fuel rnd None g2 g3 Hinv2) as Hplay.
    destruct (gamePlay fuel rnd None g2) as [[] g3|e g3|]; [|done..].
    specialize (Hplay g3 eq_refl).
    destruct (default true (setup_addToEngine setup)); intros [= <-];
      [by apply (grid_inv_frame g3)|done].
  - destruct (default true (setup_addToEngine setup)); intros [= <-];
      [by apply (grid_inv_frame g2)|done].
Qed.

(** Every state a game goes through satisfies the invariant. *)
Lemma reachable_grid_inv (g : SPGame) : reachable g → grid_inv g.
Proof.
  induction 1 as [fuel rnd setup g Hc|fuel ev g g' _ IH Hstep].
  - by eapply grid_inv_construct.
  - by eapply grid_inv_handle.
Qed.

(** ** Example games (the 2 x 3 puzzle of the README) *)

Lemma example_new_reachable : reachable example_new.
Proof. by apply (reachable_construct 0 noRandom example_setup). Defined.

Lemma example_running_reachable : reachable example_running.
Proof.
  by apply (reachable_handle 0 (ParentClick None noRandom) example_new);
    [apply example_new_reachable|].
Defined.

Lemma example_moving_reachable : reachable example_moving.
Proof.
  by apply (reachable_handle 0 (ParentClick (Some 4%nat) noRandom)
              example_running); [apply example_running_reachable|].
Defined.

(** ** C5: the tiles always occupy the grid cells one to one *)

(** C5. In every state a constructed game goes through (after the
    initial placement, a shuffle, the callback of a move, [resolve],
    [reShuffle]) there are rows * columns tiles, no two tiles have the
    same current cell, every cell of the grid is the current cell of a
    tile, and every tile is on a cell of the grid. *)
Theorem positions_form_permutation (g : SPGame) :
  reachable g →
  let rows := Vector2.x (puzzleShape g) in
  let columns := Vector2.y (puzzleShape g) in
  Z.of_nat (length (tiles g)) = rows * columns ∧
  NoDup (gridCurrent <$> tiles g) ∧
  (∀ r c, 0 ≤ r < rows → 0 ≤ c < columns →
     Vector2.New r c ∈ gridCurrent <$> tiles g) ∧
  (∀ t, t ∈ tiles g →
     0 ≤ Vector2.x (gridCurrent t) < rows ∧
     0 ≤ Vector2.y (gridCurrent t) < columns).
Proof.
  intros Hinv%reachable_grid_inv rows columns.
  pose proof (inv_rows g Hinv). pose proof (inv_columns g Hinv).
  pose proof (inv_tileCnt g Hinv) as Hn. fold rows columns in Hn.
  pose proof (inv_current g Hinv) as Hcur.
  split; [rewrite (inv_length g Hinv); nia|].
  split; [by apply inv_current_NoDup|]. split.
  - intros r c Hr Hc. rewrite Hcur.
    rewrite <- (gridPosition_cell (puzzleShape g)) by (fold columns; lia).
    apply list_elem_of_fmap_2, elem_of_seqZ. fold columns. nia.
  - intros t Ht.
    assert (Hin : gridCurrent t ∈ gridCurrent <$> tiles g)
      by by apply list_elem_of_fmap_2.
    rewrite Hcur in Hin.
    apply list_elem_of_fmap in Hin as (n & -> & Hn'%elem_of_seqZ).
    apply gridPosition_range; fold rows columns; lia.
Qed.

Lemma positions_form_permutation_witness :
  NoDup (gridCurrent <$> tiles example_moving) ∧
  Vector2.New 1 1 ∈ gridCurrent <$> tiles example_moving.
Proof.
  destruct (positions_form_permutation example_moving example_moving_reachable)
    as (_ & Hnd & Hcell & _).
  split; [exact Hnd|]. apply Hcell; simpl; lia.
Defined.

(** ** C2: detecting completion *)

(** With the tiles one to one on the cells, a tile whose cell is taken to
    be checked by nobody is in place as soon as all the others are. *)
Lemma in_place_but_one (g : SPGame) (k : nat) :
  grid_inv g →
  (∀ i t, i ≠ k → tiles g !! i = Some t → gridCurrent t = gridOrigin t) →
  Forall (λ t, gridCurrent t = gridOrigin t) (tiles g).
Proof.
  intros Hinv Hothers. apply Forall_lookup. intros i t Ht.
  destruct (decide (i = k)) as [->|Hne]; [|by eapply Hothers].
  assert (Hin : gridCurrent t ∈ gridOrigin <$> tiles g).
  { rewrite (inv_origins g Hinv), <- (inv_current g Hinv).
    apply list_elem_of_fmap_2. by eapply list_elem_of_lookup_2. }
  apply list_elem_of_lookup in Hin as [j Hj].
  rewrite list_lookup_fmap in Hj.
  destruct (tiles g !! j) as [u|] eqn:Hu; [|done]. injection Hj as Hj.
  destruct (decide (j = k)) as [->|Hjk]; [congruence|].
  pose proof (Hothers j u Hjk Hu) as Hplace.
  assert (j = k); [|done].
  apply (NoDup_lookup (gridCurrent <$> tiles g) j k (gridCurrent t)).
  - by apply inv_current_NoDup.
  - rewrite list_lookup_fmap, Hu. simpl. congruence.
  - by rewrite list_lookup_fmap, Ht.
Qed.

Lemma forallb_Forall_place (l : list SPTile) :
  forallb checkTilePosition l = true
  ↔ Forall (λ t, gridCurrent t = gridOrigin t) l.
Proof.
  induction l as [|t l IH]; simpl; [by split|].
  rewrite andb_true_iff, Forall_cons, IH, checkTilePosition_true. done.
Qed.

(** The verdict of [checkAndFinish] in a state that satisfies the
    invariant of the grid. *)
Lemma checkAndFinish_verdict (g : SPGame) (vt : SPTile) :
  grid_inv g → voidTile g = Some vt →
  (checkTilePosition vt
   && forallb checkTilePosition (slice0 (tiles g) (tileCnt g - 2)) = true)
  ↔ Forall (λ t, gridCurrent t = gridOrigin t) (tiles g).
Proof.
  intros Hinv Hvt. pose proof (inv_tileCnt_ge g Hinv) as Hn.
  pose proof (inv_length g Hinv) as Hlen.
  rewrite voidTile_lookup in Hvt by lia.
  rewrite andb_true_iff, checkTilePosition_true, forallb_Forall_place.
  unfold slice0. rewrite bool_decide_eq_false_2 by lia.
  replace (Z.to_nat (Z.min _ _)) with (Z.to_nat (tileCnt g - 2)) by lia.
  split.
  - intros [Hvoid Hrest].
    apply (in_place_but_one g (Z.to_nat (tileCnt g - 2)) Hinv).
    intros i t Hi Ht.
    destruct (decide (i = Z.to_nat (tileCnt g - 1))) as [->|Hiv];
      [congruence|].
    rewrite Forall_lookup in Hrest. apply (Hrest i).
    apply lookup_lt_Some in Ht as Hlt.
    rewrite lookup_take_lt by lia. done.
  - intros Hall. split.
    + rewrite Forall_lookup in Hall. by eapply Hall.
    + by apply Forall_take.
Qed.

(** What [checkAndFinish] does in a state that satisfies the invariant
    of the grid. *)
Lemma checkAndFinish_complete (g : SPGame) :
  grid_inv g →
  ∃ (vt : SPTile) (result : bool) (g' : SPGame),
    voidTile g = Some vt ∧
    checkAndFinish g = Returned result g' ∧
    (result = true ↔ Forall (λ t, gridCurrent t = gridOrigin t) (tiles g)) ∧
    result = checkTilePosition vt
             && forallb checkTilePosition
                  (take (Z.to_nat (tileCnt g - 1)) (tiles g)) ∧
    (result = true →
       invoked g' = invoked g ++ [Finish] ∧ voidAlive g' = true ∧
       isRunning g' = false ∧ tiles g' = tiles g ∧
       lockedInput g' = lockedInput g) ∧
    (result = false → g' = g).
Proof.
  intros Hinv. destruct (inv_voidTile g Hinv) as [vt Hvt].
  pose proof (checkAndFinish_verdict g vt Hinv Hvt) as Hverdict.
  exists vt. eexists. eexists. split; [done|].
  split; [by apply checkAndFinish_spec|]. simpl.
  split; [done|]. split.
  - apply eq_true_iff_eq. rewrite Hverdict.
    rewrite andb_true_iff, forallb_Forall_place, checkTilePosition_true.
    pose proof (inv_tileCnt_ge g Hinv). pose proof (inv_length g Hinv).
    rewrite voidTile_lookup in Hvt by lia.
    rewrite <- (take_drop_middle (tiles g) _ vt Hvt) at 1.
    rewrite Forall_app, Forall_cons, drop_ge by lia.
    rewrite Forall_nil. tauto.
  - split; intros ->; done.
Qed.

(** C2. In a state that satisfies the invariant of the grid (every
    reachable state does), [checkAndFinish] reports completion exactly
    when every tile is on its origin cell: then it returns true, has
    invoked [finish], made the void tile visible and cleared [isRunning];
    else it returns false and changes nothing.  Its verdict is the
    conjunction of the test of the void tile, made first, and of the tests
    of all the other tiles.  In particular the callback of a move, which
    runs the check on the swapped tiles, ends with [finish] invoked, the
    void tile visible and [isRunning] false when all tiles are then on
    their origin cells, and with no action invoked otherwise. *)
Theorem checkAndFinish_reports_completion (g : SPGame) :
  grid_inv g →
  (∃ (vt : SPTile) (result : bool) (g' : SPGame),
     voidTile g = Some vt ∧
     checkAndFinish g = Returned result g' ∧
     (result = true ↔ Forall (λ t, gridCurrent t = gridOrigin t) (tiles g)) ∧
     result = checkTilePosition vt
              && forallb checkTilePosition
                   (take (Z.to_nat (tileCnt g - 1)) (tiles g)) ∧
     (result = true →
        invoked g' = invoked g ++ [Finish] ∧ voidAlive g' = true ∧
        isRunning g' = false ∧ tiles g' = tiles g ∧
        lockedInput g' = lockedInput g) ∧
     (result = false → g' = g)) ∧
  (∀ (t : nat) (tComp : SPTile),
     moving g = Some t → tiles g !! t = Some tComp →
     ∃ g' : SPGame,
       moveFinished g = Returned tt g' ∧
       (Forall (λ t, gridCurrent t = gridOrigin t) (tiles g') →
          invoked g' = invoked g ++ [Finish] ∧ voidAlive g' = true ∧
          isRunning g' = false) ∧
       (¬ Forall (λ t, gridCurrent t = gridOrigin t) (tiles g') →
          invoked g' = invoked g ∧ voidAlive g' = voidAlive g ∧
          isRunning g' = isRunning g)).
Proof.
  intros Hinv. split; [by apply checkAndFinish_complete|].
  intros t tComp Hmov Ht.
  destruct (inv_voidTile g Hinv) as [vtComp Hvt].
  pose proof (inv_tileCnt_ge g Hinv).
  rewrite (moveFinished_spec g t tComp vtComp) by (done || lia).
  set (g1 := set_tiles (swappedTiles g t tComp vtComp) (set_moving None g)).
  assert (Hinv1 : grid_inv g1) by by apply (grid_inv_swapped g _ t tComp vtComp).
  destruct (checkAndFinish_complete g1 Hinv1)
    as (vt & result & g2 & _ & -> & Hres & _ & Hyes & Hno).
  eexists. split; [done|]. simpl. destruct result.
  - destruct (Hyes eq_refl) as (Hi & Hv & Hr & Htl & _).
    split; [done|]. intros Hnot. exfalso. apply Hnot.
    rewrite Htl. by apply Hres.
  - rewrite (Hno eq_refl). split; [|done].
    intros Hall%Hres. done.
Qed.

Lemma checkAndFinish_reports_completion_witness :
  ∃ g' : SPGame,
    moveFinished example_moving = Returned tt g' ∧
    (Forall (λ t, gridCurrent t = gridOrigin t) (tiles g') →
       invoked g' = invoked example_moving ++ [Finish] ∧
       voidAlive g' = true ∧ isRunning g' = false) ∧
    (¬ Forall (λ t, gridCurrent t = gridOrigin t) (tiles g') →
       invoked g' = invoked example_moving ∧
       voidAlive g' = voidAlive example_moving ∧
       isRunning g' = isRunning example_moving).
Proof.
  refine (proj2 (checkAndFinish_reports_completion example_moving _)
            4%nat (mkSPTile 4 (Vector2.New 1 1) (Vector2.New 1 2)) _ _);
    [|reflexivity..].
  apply reachable_grid_inv, example_moving_reachable.
Defined.

(** Outside the invariant the two notions differ: [slice(0, tileCnt - 2)]
    leaves tile [tileCnt - 2] unexamined, so a state (which no game
    reaches) with that tile alone off its origin cell passes the check. *)
Remark checkAndFinish_unexamined_tile :
  let g := set_tiles
             (<[2%nat := mkSPTile 2 (Vector2.New 1 0) (Vector2.New 0 0)]>
                (newTile (Vector2.New 2 2) <$> seqZ 0 4))
             (blank (Vector2.New 2 2)) in
  ¬ Forall (λ t, gridCurrent t = gridOrigin t) (tiles g) ∧
  ∃ g', checkAndFinish g = Returned true g'.
Proof.
  split.
  - intros Hall. rewrite Forall_lookup in Hall.
    by specialize (Hall 2%nat _ eq_refl).
  - eexists. vm_compute. reflexivity.
Qed.

(** ** C6 and C7: clicks on a running, unlocked game *)

Lemma lengthSquared_same (v : Vector2) :
  Vector2.lengthSquared (Vector2.subtract v v) = 0.
Proof. unfold Vector2.lengthSquared, Vector2.subtract. simpl. lia. Qed.

(** C6. In a running, unlocked game a click on a tile whose current cell
    is at squared distance 1 from the one of the void tile invokes
    [willMove] and locks the input; once the callback of the animation has
    run, the clicked tile is on the cell the void tile had, the void tile
    on the cell the clicked tile had, every other tile is as it was, and
    the input is unlocked. *)
Theorem adjacent_click_swaps (fuel : nat) (rnd : nat → Q) (g : SPGame)
    (t : nat) (tComp vtComp : SPTile) :
  isRunning g = true → lockedInput g = false →
  tiles g !! t = Some tComp → voidTile g = Some vtComp →
  Vector2.lengthSquared
    (Vector2.subtract (gridCurrent vtComp) (gridCurrent tComp)) = 1 →
  ∃ g1 g2 : SPGame,
    gamePlay fuel rnd (Some t) g = Returned tt g1 ∧
    invoked g1 = invoked g ++ [WillMove] ∧
    lockedInput g1 = true ∧
    tiles g1 = tiles g ∧
    moveFinished g1 = Returned tt g2 ∧
    gridCurrent <$> tiles g2 !! t = Some (gridCurrent vtComp) ∧
    gridCurrent <$> voidTile g2 = Some (gridCurrent tComp) ∧
    (∀ i, i ≠ t → i ≠ Z.to_nat (tileCnt g - 1) →
       tiles g2 !! i = tiles g !! i) ∧
    lockedInput g2 = false.
Proof.
  intros Hrun Hlock Ht Hvt Hadj.
  assert (Hcnt : 1 ≤ tileCnt g).
  { unfold voidTile, array_get in Hvt. case_bool_decide; [lia|done]. }
  pose proof Hvt as Hvi. rewrite voidTile_lookup in Hvi by done.
  set (vi := Z.to_nat (tileCnt g - 1)) in *.
  assert (Hne : t ≠ vi).
  { intros ->. assert (tComp = vtComp) as -> by congruence.
    rewrite lengthSquared_same in Hadj. done. }
  set (g1 := set_moving (Some t)
               (set_lockedInput true (set_invoked (invoked g ++ [WillMove]) g))).
  set (g1' := set_tiles (swappedTiles g1 t tComp vtComp) (set_moving None g1)).
  assert (Hlen : (t < length (tiles g) ∧ vi < length (tiles g))%nat)
    by (split; by eapply lookup_lt_Some).
  assert (Htl : tiles g1' !! t
                = Some (set_gridCurrent (gridCurrent vtComp) tComp)).
  { simpl. unfold swappedTiles. simpl. fold vi.
    rewrite list_lookup_alter_ne by done.
    by rewrite list_lookup_insert_eq by lia. }
  assert (Hvl : tiles g1' !! vi
                = Some (set_gridCurrent (gridCurrent tComp) vtComp)).
  { simpl. unfold swappedTiles. simpl. fold vi.
    rewrite list_lookup_alter_eq, list_lookup_insert_ne by done.
    by rewrite Hvi. }
  assert (Hvt' : voidTile g1'
                 = Some (set_gridCurrent (gridCurrent tComp) vtComp))
    by by rewrite voidTile_lookup.
  exists g1.
  exists (set_lockedInput false
            (let result :=
               checkTilePosition (set_gridCurrent (gridCurrent tComp) vtComp)
               && forallb checkTilePosition
                    (slice0 (tiles g1') (tileCnt g1' - 2)) in
             if result then finished g1' else g1')).
  split.
  { rewrite (gamePlay_click _ _ _ _ tComp vtComp) by done.
    by rewrite bool_decide_eq_true_2. }
  do 3 (split; [done|]). split.
  { rewrite (moveFinished_spec g1 t tComp vtComp) by done.
    fold g1'. by rewrite (checkAndFinish_spec g1' _ Hvt'). }
  assert (Htiles : ∀ b : bool,
            tiles (set_lockedInput false (if b then finished g1' else g1'))
            = tiles g1') by (by intros []).
  assert (Hvoid : ∀ b : bool,
            voidTile (set_lockedInput false (if b then finished g1' else g1'))
            = voidTile g1') by (by intros []).
  cbv zeta. rewrite Htiles, Hvoid, Htl, Hvt'.
  do 2 (split; [done|]). split; [|by destruct (_ && _)].
  intros i Hit Hiv. simpl. unfold swappedTiles. simpl. fold vi.
  rewrite list_lookup_alter_ne by done.
  by rewrite list_lookup_insert_ne by done.
Qed.

Lemma adjacent_click_swaps_witness :
  ∃ g1 g2 : SPGame,
    gamePlay 0 noRandom (Some 4%nat) example_running = Returned tt g1 ∧
    invoked g1 = invoked example_running ++ [WillMove] ∧
    lockedInput g1 = true ∧
    tiles g1 = tiles example_running ∧
    moveFinished g1 = Returned tt g2 ∧
    gridCurrent <$> tiles g2 !! 4%nat = Some (Vector2.New 1 1) ∧
    gridCurrent <$> voidTile g2 = Some (Vector2.New 1 2) ∧
    (∀ i, i ≠ 4%nat → i ≠ Z.to_nat (tileCnt example_running - 1) →
       tiles g2 !! i = tiles example_running !! i) ∧
    lockedInput g2 = false.
Proof.
  apply (adjacent_click_swaps 0 noRandom example_running 4
           (mkSPTile 4 (Vector2.New 1 1) (Vector2.New 1 2))
           (mkSPTile 5 (Vector2.New 1 2) (Vector2.New 1 1)));
    reflexivity.
Defined.

(** C7. In a running, unlocked game a click on a tile whose current cell
    is not at squared distance 1 from the one of the void tile invokes
    [willStall] and changes nothing else: no tile moves, no animation
    starts, [isRunning] and [lockedInput] stay as they are. *)
Theorem distant_click_stalls (fuel : nat) (rnd : nat → Q) (g : SPGame)
    (t : nat) (tComp vtComp : SPTile) :
  isRunning g = true → lockedInput g = false →
  tiles g !! t = Some tComp → voidTile g = Some vtComp →
  Vector2.lengthSquared
    (Vector2.subtract (gridCurrent vtComp) (gridCurrent tComp)) ≠ 1 →
  ∃ g' : SPGame,
    gamePlay fuel rnd (Some t) g = Returned tt g' ∧
    g' = set_invoked (invoked g ++ [WillStall]) g ∧
    invoked g' = invoked g ++ [WillStall] ∧
    tiles g' = tiles g ∧ isRunning g' = isRunning g ∧
    lockedInput g' = lockedInput g ∧ moving g' = moving g ∧
    voidAlive g' = voidAlive g ∧ fixedShuffleArr g' = fixedShuffleArr g.
Proof.
  intros Hrun Hlock Ht Hvt Hfar. eexists. split.
  - rewrite (gamePlay_click _ _ _ _ tComp vtComp) by done.
    by rewrite bool_decide_eq_false_2.
  - done.
Qed.

Lemma distant_click_stalls_witness :
  ∃ g' : SPGame,
    gamePlay 0 noRandom (Some 0%nat) example_running = Returned tt g' ∧
    g' = set_invoked (invoked example_running ++ [WillStall]) example_running ∧
    invoked g' = invoked example_running ++ [WillStall] ∧
    tiles g' = tiles example_running ∧
    isRunning g' = isRunning example_running ∧
    lockedInput g' = lockedInput example_running ∧
    moving g' = moving example_running ∧
    voidAlive g' = voidAlive example_running ∧
    fixedShuffleArr g' = fixedShuffleArr example_running.
Proof.
  apply (distant_click_stalls 0 noRandom example_running 0
           (mkSPTile 0 (Vector2.New 0 0) (Vector2.New 0 0))
           (mkSPTile 5 (Vector2.New 1 2) (Vector2.New 1 1)));
    (reflexivity || (vm_compute; discriminate)).
Defined.

(** ** C8: [resolve] *)

(** C8. After [resolve] every tile is on its origin cell, the void tile
    is visible, [isRunning] is false and no action has been invoked (in
    particular not [finish]); a completion check made then reports
    completion. *)
Theorem resolve_restores_origin (g : SPGame) :
  reachable g →
  ∃ g' g'' : SPGame,
    resolve g = Returned tt g' ∧
    Forall (λ t, gridCurrent t = gridOrigin t) (tiles g') ∧
    voidAlive g' = true ∧
    isRunning g' = false ∧
    invoked g' = invoked g ∧
    checkAndFinish g' = Returned true g''.
Proof.
  intros Hinv%reachable_grid_inv.
  pose proof (inv_voidTile g Hinv) as Hvt.
  eexists. eexists. split; [by apply resolve_spec|].
  set (g' := set_voidAlive true _).
  assert (Hplace : Forall (λ t, gridCurrent t = gridOrigin t) (tiles g')).
  { simpl. apply Forall_fmap.
    pose proof (inv_origin g Hinv) as Horigin.
    eapply Forall_impl; [exact Horigin|]. intros t Ht. simpl. by rewrite Ht. }
  split; [done|]. do 3 (split; [done|]).
  assert (Hinv' : grid_inv g').
  { apply (grid_inv_resolve g); [done|]. by rewrite resolve_spec. }
  destruct (inv_voidTile g' Hinv') as [vt' Hvt'].
  rewrite (checkAndFinish_spec g' vt' Hvt'). cbv zeta.
  apply (checkAndFinish_verdict g' vt' Hinv' Hvt') in Hplace.
  rewrite Hplace. reflexivity.
Qed.

Lemma resolve_restores_origin_witness :
  ∃ g' g'' : SPGame,
    resolve example_moving = Returned tt g' ∧
    Forall (λ t, gridCurrent t = gridOrigin t) (tiles g') ∧
    voidAlive g' = true ∧
    isRunning g' = false ∧
    invoked g' = invoked example_moving ∧
    checkAndFinish g' = Returned true g''.
Proof.
  apply (resolve_restores_origin example_moving example_moving_reachable).
Defined.

(** ** C9: a stored fixed shuffle is reused *)

Ltac run_cases :=
  run_method;
  repeat (first [case_match | case_bool_decide]; run_method; simplify_eq);
  try done.

Lemma voidTileVisibility_fixed (enable : bool) (g g' : SPGame) :
  after (voidTileVisibility enable g) = Some g' →
  fixedShuffleArr g' = fixedShuffleArr g ∧ isRunning g' = isRunning g.
Proof. unfold voidTileVisibility. run_cases; by intros [= <-]. Qed.

Lemma checkAndFinish_fixed (g g' : SPGame) :
  after (checkAndFinish g) = Some g' →
  fixedShuffleArr g' = fixedShuffleArr g.
Proof.
  destruct (voidTile g) as [vt|] eqn:Hvt.
  - rewrite (checkAndFinish_spec g vt Hvt). simpl.
    destruct (_ && _); by intros [= <-].
  - unfold checkAndFinish. run_method. rewrite Hvt. by intros [= <-].
Qed.

Lemma gamePlay_fixed fuel rnd tile (g g' : SPGame) :
  after (gamePlay fuel rnd tile g) = Some g' →
  fixedShuffleArr g' = fixedShuffleArr g.
Proof.
  destruct (isRunning g) eqn:Hrun.
  - unfold gamePlay, gameTurn. run_method. rewrite Hrun. simpl.
    run_cases; by intros [= <-].
  - destruct (voidTile g) as [vt|] eqn:Hvt.
    + rewrite gamePlay_start by (done || by eexists).
      destruct (shuffleChoice fuel rnd g); [|done]. by intros [= <-].
    + unfold gamePlay, voidTileVisibility. run_method.
      rewrite Hrun. simpl. unfold voidTile in *. simpl. rewrite Hvt.
      by intros [= <-].
Qed.

Lemma moveFinished_fixed (g g' : SPGame) :
  after (moveFinished g) = Some g' →
  fixedShuffleArr g' = fixedShuffleArr g.
Proof.
  unfold moveFinished. run_method.
  destruct (moving g) as [t|]; [|by intros [= <-]].
  destruct (tiles g !! t) as [tComp|]; simpl; [|by intros [= <-]].
  destruct (voidTile _) as [vtComp|]; simpl; [|by intros [= <-]].
  match goal with
  | |- context [checkAndFinish ?s] =>
      pose proof (λ s', checkAndFinish_fixed s s') as Hcheck;
      destruct (checkAndFinish s) as [b g1|e g1|]
  end; simpl in *; [| |done].
  - intros [= <-]. simpl. by rewrite (Hcheck g1).
  - intros [= <-]. by rewrite (Hcheck g1).
Qed.

Lemma resolve_fixed (g g' : SPGame) :
  after (resolve g) = Some g' → fixedShuffleArr g' = fixedShuffleArr g.
Proof.
  unfold resolve. run_method.
  match goal with
  | |- context [voidTileVisibility true ?s] =>
      pose proof (λ s', voidTileVisibility_fixed true s s') as Hvis;
      destruct (voidTileVisibility true s) as [b g1|e g1|]
  end; simpl in *; [| |done]; intros [= <-]; by apply Hvis.
Qed.

Lemma handle_fixed fuel ev (g g' : SPGame) :
  ¬ isReShuffle ev → after (handle fuel ev g) = Some g' →
  fixedShuffleArr g' = fixedShuffleArr g.
Proof.
  destruct ev as [hit rnd|[t|] rnd| |arr rnd|]; simpl; intros Hev.
  - apply gamePlay_fixed.
  - apply gamePlay_fixed.
  - by intros [= <-].
  - apply moveFinished_fixed.
  - done.
  - apply resolve_fixed.
Qed.

Lemma reShuffle_fixed fuel rnd (new : option (list Z)) (g g' : SPGame) :
  after (reShuffle fuel rnd new g) = Some g' →
  match new with
  | None => fixedShuffleArr g' = None
  | Some arr' =>
      (fixedShuffleArr g' = Some arr' ∧ arr' ≡ₚ seqZ 0 (tileCnt g))
      ∨ (fixedShuffleArr g' = fixedShuffleArr g
         ∧ ∃ e, reShuffle fuel rnd new g = Thrown e g')
  end.
Proof.
  unfold reShuffle. run_method. destruct new as [arr'|].
  - rewrite setfixedShuffleArr_spec. simpl.
    case_bool_decide; [intros [= <-]; right; eauto|].
    case_bool_decide as Hsort; [intros [= <-]; right; eauto|].
    case_bool_decide; [intros [= <-]; right; eauto|].
    intros Hplay%gamePlay_fixed. rewrite Hplay. left. split; [done|].
    apply sort_ascending_identity.
    by destruct (decide (sort_ascending arr' = seqZ 0 (tileCnt g))).
  - intros Hplay%gamePlay_fixed. by rewrite Hplay.
Qed.

(** C9. A stored fixed shuffle is what [getShuffleArray] returns, for any
    oracle and without a check of the array; so each (re)start places the
    tiles by it.  Events other than [reShuffle] keep it stored.
    [reShuffle] with a new array replaces it when the new array passes the
    validation and throws, keeping the old one, when it does not;
    [reShuffle] without an array clears it. *)
Theorem fixed_shuffle_reused (g : SPGame) (arr : list Z) :
  fixedShuffleArr g = Some arr →
  (∀ fuel rnd, getShuffleArray fuel rnd g = Returned arr g) ∧
  (∀ fuel rnd tile, isRunning g = false → is_Some (voidTile g) →
     gamePlay fuel rnd tile g = Returned tt (started g arr)) ∧
  (∀ evs g', run_events g evs g' → Forall (λ ev, ¬ isReShuffle ev) evs →
     fixedShuffleArr g' = Some arr) ∧
  (∀ fuel rnd new g', after (reShuffle fuel rnd new g) = Some g' →
     match new with
     | None => fixedShuffleArr g' = None
     | Some arr' =>
         (fixedShuffleArr g' = Some arr' ∧ arr' ≡ₚ seqZ 0 (tileCnt g))
         ∨ (fixedShuffleArr g' = Some arr
            ∧ ∃ e, reShuffle fuel rnd new g = Thrown e g')
     end).
Proof.
  intros Hfix.
  assert (Hchoice : ∀ fuel rnd, shuffleChoice fuel rnd g = Some arr).
  { intros fuel rnd. unfold shuffleChoice. by rewrite Hfix. }
  split; [|split; [|split]].
  - intros fuel rnd. by rewrite getShuffleArray_spec, Hchoice.
  - intros fuel rnd tile Hrun Hvt. by rewrite gamePlay_start, Hchoice.
  - intros evs g' Hrun. clear Hchoice. revert Hfix.
    induction Hrun as [g|fuel ev evs g g1 g2 Hstep _ IH]; intros Hfix.
    + done.
    + intros [Hev Hevs]%Forall_cons. apply IH; [|done].
      by rewrite (handle_fixed fuel ev g g1).
  - intros fuel rnd new g' Hafter.
    apply reShuffle_fixed in Hafter. by rewrite Hfix in Hafter.
Qed.

Lemma fixed_shuffle_reused_witness :
  (∀ fuel rnd,
     getShuffleArray fuel rnd example_new
     = Returned [0; 1; 2; 3; 5; 4] example_new) ∧
  (∀ fuel rnd tile, isRunning example_new = false →
     is_Some (voidTile example_new) →
     gamePlay fuel rnd tile example_new
     = Returned tt (started example_new [0; 1; 2; 3; 5; 4])) ∧
  (∀ evs g', run_events example_new evs g' →
     Forall (λ ev, ¬ isReShuffle ev) evs →
     fixedShuffleArr g' = Some [0; 1; 2; 3; 5; 4]) ∧
  (∀ fuel rnd new g', after (reShuffle fuel rnd new example_new) = Some g' →
     match new with
     | None => fixedShuffleArr g' = None
     | Some arr' =>
         (fixedShuffleArr g' = Some arr'
          ∧ arr' ≡ₚ seqZ 0 (tileCnt example_new))
         ∨ (fixedShuffleArr g' = Some [0; 1; 2; 3; 5; 4]
            ∧ ∃ e, reShuffle fuel rnd new example_new = Thrown e g')
     end).
Proof.
  apply (fixed_shuffle_reused example_new [0; 1; 2; 3; 5; 4]). reflexivity.
Defined.

(** ** C10: a click on a game that is not running starts one *)

Lemma shuffleUntilSolvable_S fuel rnd shape cnt (k : nat) :
  shuffleUntilSolvable (S fuel) rnd k shape cnt =
    if permutationProof shape (shuffle rnd k (seqZ 0 cnt))
    then Some (shuffle rnd k (seqZ 0 cnt))
    else shuffleUntilSolvable fuel rnd (k + (Z.to_nat cnt - 1)) shape cnt.
Proof. reflexivity. Qed.

Lemma shuffleUntilSolvable_first fuel rnd shape cnt (n k : nat) :
  let c := (Z.to_nat cnt - 1)%nat in
  (∀ m, (m < n)%nat →
     permutationProof shape (shuffle rnd (k + m * c) (seqZ 0 cnt)) = false) →
  permutationProof shape (shuffle rnd (k + n * c) (seqZ 0 cnt)) = true →
  (n < fuel)%nat →
  shuffleUntilSolvable fuel rnd k shape cnt
  = Some (shuffle rnd (k + n * c) (seqZ 0 cnt)).
Proof.
  intros c. revert k fuel.
  induction n as [|n IH]; intros k [|fuel] Hbefore Hn Hfuel; try lia;
    rewrite shuffleUntilSolvable_S.
  - replace (k + 0 * c)%nat with k in Hn |- * by lia. by rewrite Hn.
  - pose proof (Hbefore 0%nat ltac:(lia)) as H0.
    replace (k + 0 * c)%nat with k in H0 by lia. rewrite H0. fold c.
    replace (k + S n * c)%nat with ((k + c) + n * c)%nat in Hn |- * by lia.
    apply IH; [|done|lia].
    intros m Hm. specialize (Hbefore (S m) ltac:(lia)).
    by replace (k + S m * c)%nat with ((k + c) + m * c)%nat in Hbefore by lia.
Qed.

Lemma shuffleChoice_random fuel rnd (g : SPGame) (n : nat) :
  fixedShuffleArr g = None →
  firstSolvable rnd (puzzleShape g) (tileCnt g) n → (n < fuel)%nat →
  shuffleChoice fuel rnd g = Some (attempt rnd (tileCnt g) n).
Proof.
  intros Hfix [Hn Hbefore] Hfuel. unfold shuffleChoice. rewrite Hfix.
  by apply (shuffleUntilSolvable_first fuel rnd _ _ n 0).
Qed.

(** C10. A click processed while [isRunning] is false starts a game,
    whatever tile (if any) it resolved to and whether or not the input is
    locked.  The arrangement is the stored fixed shuffle if there is one;
    else it is the first random shuffle the solvability check accepts, and
    the click is processed to the end as soon as there is one ([fuel]
    bounds the tries).  Then [start] has been invoked, the void tile is
    hidden, the tile with index [n] is on the cell of the position where
    the arrangement holds [n], and [isRunning] is true; the input lock is
    as before. *)
Theorem idle_click_starts_game (fuel : nat) (rnd : nat → Q)
    (hit : option nat) (g : SPGame) (arr : list Z) :
  reachable g → isRunning g = false →
  (fixedShuffleArr g = Some arr
   ∨ (fixedShuffleArr g = None
      ∧ ∃ n, firstSolvable rnd (puzzleShape g) (tileCnt g) n
             ∧ (n < fuel)%nat ∧ arr = attempt rnd (tileCnt g) n)) →
  ∃ g' : SPGame,
    handle fuel (ParentClick hit rnd) g = Returned tt g' ∧
    (∀ t, handle fuel (ChildClick (Some t) rnd) g = Returned tt g') ∧
    invoked g' = invoked g ++ [Start] ∧
    voidAlive g' = false ∧
    isRunning g' = true ∧
    lockedInput g' = lockedInput g ∧
    length (tiles g') = length (tiles g) ∧
    arr ≡ₚ seqZ 0 (tileCnt g) ∧
    (∀ (p : nat) (n : Z), arr !! p = Some n →
       gridCurrent <$> tiles g' !! Z.to_nat n
       = Some (gridPosition (puzzleShape g) (Z.of_nat p))).
Proof.
  intros Hinv%reachable_grid_inv Hrun Hsource.
  assert (Hchoice : shuffleChoice fuel rnd g = Some arr).
  { destruct Hsource as [Hfix|(Hfix & n & Hfirst & Hfuel & ->)].
    - unfold shuffleChoice. by rewrite Hfix.
    - by apply shuffleChoice_random. }
  pose proof (shuffleChoice_Permutation _ _ _ _ Hinv Hchoice) as Hperm.
  assert (Hstart : ∀ tile, gamePlay fuel rnd tile g
                           = Returned tt (started g arr)).
  { intros tile. rewrite gamePlay_start by auto using inv_voidTile.
    by rewrite Hchoice. }
  exists (started g arr). simpl. unfold tileParentClick.
  split; [done|]. split; [done|]. do 4 (split; [done|]).
  split; [by rewrite length_fmap|]. split; [done|].
  intros p n Hp.
  assert (Hnd : NoDup arr) by (rewrite Hperm; apply NoDup_seqZ).
  assert (Hn : 0 ≤ n < tileCnt g).
  { apply list_elem_of_lookup_2 in Hp. rewrite Hperm in Hp.
    apply elem_of_seqZ in Hp. lia. }
  destruct (lookup_lt_is_Some_2 (tiles g) (Z.to_nat n)) as [t Ht].
  { rewrite (inv_length g Hinv). lia. }
  destruct (inv_lookup g _ t Hinv Ht) as [Hidx _].
  rewrite !list_lookup_fmap, Ht. simpl. rewrite Hidx, Z2Nat.id by lia.
  by rewrite (indexOf_lookup arr n p Hnd Hp).
Qed.

Lemma idle_click_starts_game_witness :
  ∃ g' : SPGame,
    handle 0 (ParentClick None noRandom) example_new = Returned tt g' ∧
    (∀ t, handle 0 (ChildClick (Some t) noRandom) example_new
          = Returned tt g') ∧
    invoked g' = invoked example_new ++ [Start] ∧
    voidAlive g' = false ∧
    isRunning g' = true ∧
    lockedInput g' = lockedInput example_new ∧
    length (tiles g') = length (tiles example_new) ∧
    [0; 1; 2; 3; 5; 4] ≡ₚ seqZ 0 (tileCnt example_new) ∧
    (∀ (p : nat) (n : Z), [0; 1; 2; 3; 5; 4] !! p = Some n →
       gridCurrent <$> tiles g' !! Z.to_nat n
       = Some (gridPosition (puzzleShape example_new) (Z.of_nat p))).
Proof.
  apply (idle_click_starts_game 0 noRandom None example_new
           [0; 1; 2; 3; 5; 4] example_new_reachable);
    [reflexivity|left; reflexivity].
Defined.

(** The random mode of C10 on a 2 x 2 game: with an oracle that always
    answers 0 the first try is accepted. *)
Example idle_click_random :
  let g := game_of (construct 0 noRandom
                      (mkSPSetup (Vector2.New 2 2) (1, 1)%Q None None None)) in
  firstSolvable noRandom (puzzleShape g) (tileCnt g) 0
  ∧ attempt noRandom (tileCnt g) 0 = [1; 2; 3; 0]
  ∧ gridCurrent <$> tiles (game_of (handle 1 (ParentClick None noRandom) g))
    = [Vector2.New 1 1; Vector2.New 0 0; Vector2.New 0 1; Vector2.New 1 0].
Proof.
  split; [split; [reflexivity|intros m Hm; lia]|].
  split; [reflexivity|vm_compute; reflexivity].
Qed.

(** And an oracle with which the loop never ends: the constant 1/2 makes
    every try the same unsolvable arrangement of the 2 x 2 game. *)
Example idle_click_diverges (fuel : nat) :
  let g := game_of (construct 0 noRandom
                      (mkSPSetup (Vector2.New 2 2) (1, 1)%Q None None None)) in
  handle fuel (ParentClick None (λ _, 1 # 2)%Q) g = Diverged.
Proof.
  intros g.
  assert (Hloop : ∀ k, shuffleUntilSolvable fuel (λ _, 1 # 2)%Q k
                         (Vector2.New 2 2) 4 = None).
  { induction fuel as [|fuel IH]; intros k; [done|].
    rewrite shuffleUntilSolvable_S.
    assert (shuffle (λ _, 1 # 2)%Q k (seqZ 0 4) = [0; 3; 1; 2]) as ->
      by reflexivity.
    apply IH. }
  simpl. unfold tileParentClick.
  rewrite gamePlay_start by (done || by eexists).
  unfold shuffleChoice. simpl. by rewrite Hloop.
Qed.

(** * Further properties of the code *)

(** ** The grid arithmetic *)

(** X1. Row and column of an index, as [init] and [repositionTile] compute
    them, determine a non-negative index ([row * columns + column]), the
    column lies inside the grid, and the cell ([r], [c]) is the one of index
    [r * columns + c].  For the index [-1] that [indexOf] gives for a
    missing value they are row [-1] and column [-1]. *)
Theorem gridPosition_round_trip (shape : Vector2) :
  2 ≤ Vector2.y shape →
  (∀ n, 0 ≤ n →
     Vector2.x (gridPosition shape n) * Vector2.y shape
       + Vector2.y (gridPosition shape n) = n
     ∧ 0 ≤ Vector2.x (gridPosition shape n)
     ∧ 0 ≤ Vector2.y (gridPosition shape n) < Vector2.y shape) ∧
  (∀ r c, 0 ≤ r → 0 ≤ c < Vector2.y shape →
     gridPosition shape (r * Vector2.y shape + c) = Vector2.New r c) ∧
  gridPosition shape (-1) = Vector2.New (-1) (-1).
Proof.
  intros Hc. split; [|split].
  - intros n Hn. unfold gridPosition, js_floor_div, js_rem. simpl.
    rewrite Z.rem_mod_nonneg by lia.
    pose proof (Z.div_mod n (Vector2.y shape) ltac:(lia)).
    pose proof (Z.mod_pos_bound n (Vector2.y shape) ltac:(lia)).
    assert (0 ≤ n / Vector2.y shape) by (apply Z.div_pos; lia).
    lia.
  - intros r c Hr Hcol. by apply gridPosition_cell.
  - unfold gridPosition, js_floor_div, js_rem. f_equal.
    + assert (-1 = (-1) * Vector2.y shape + (Vector2.y shape - 1)) as Heq
        by lia.
      rewrite Heq at 1. rewrite Z.div_add_l, Z.div_small by lia. lia.
    + apply Z.rem_small_iff; lia.
Qed.

Lemma gridPosition_round_trip_witness :
  gridPosition (Vector2.New 2 3) (1 * 3 + 2) = Vector2.New 1 2 ∧
  gridPosition (Vector2.New 2 3) (-1) = Vector2.New (-1) (-1).
Proof.
  destruct (gridPosition_round_trip (Vector2.New 2 3)) as (_ & Hcell & Hneg);
    [simpl; lia|].
  split; [apply Hcell; simpl; lia|exact Hneg].
Defined.

(** ** Shuffling *)


Lemma swapItems_length (arr : list Z) (i j : nat) :
  length (swapItems arr i j) = length arr.
Proof.
  unfold swapItems. repeat case_match; by rewrite ?length_insert.
Qed.



Lemma example_random_reachable : reachable example_random.
Proof.
  by apply (reachable_construct 0 noRandom
              (mkSPSetup (Vector2.New 2 2) (1, 1)%Q None None None)).
Defined.

Lemma shuffleUntilSolvable_None fuel rnd shape cnt (k : nat) :
  shuffleUntilSolvable fuel rnd k shape cnt = None ↔
  ∀ n, (n < fuel)%nat →
    permutationProof shape
      (shuffle rnd (k + n * (Z.to_nat cnt - 1)) (seqZ 0 cnt)) = false.
Proof.
  revert k. induction fuel as [|fuel IH]; intros k.
  - split; [intros _ n Hn; lia|done].
  - rewrite shuffleUntilSolvable_S.
    destruct (permutationProof shape (shuffle rnd k (seqZ 0 cnt))) eqn:Hk.
    + split; [done|]. intros Hall. specialize (Hall 0%nat ltac:(lia)).
      replace (k + 0 * _)%nat with k in Hall by lia. congruence.
    + rewrite IH. split.
      * intros Hall [|n] Hn.
        -- by replace (k + 0 * _)%nat with k by lia.
        -- specialize (Hall n ltac:(lia)).
           by replace (k + S n * (Z.to_nat cnt - 1))%nat
             with (k + (Z.to_nat cnt - 1) + n * (Z.to_nat cnt - 1))%nat by lia.
      * intros Hall n Hn. specialize (Hall (S n) ltac:(lia)).
        by replace (k + S n * (Z.to_nat cnt - 1))%nat
          with (k + (Z.to_nat cnt - 1) + n * (Z.to_nat cnt - 1))%nat
          in Hall by lia.
Qed.

Lemma shuffleUntilSolvable_attempt fuel rnd shape cnt (k : nat) arr :
  shuffleUntilSolvable fuel rnd k shape cnt = Some arr →
  ∃ n, (n < fuel)%nat ∧
    arr = shuffle rnd (k + n * (Z.to_nat cnt - 1)) (seqZ 0 cnt).
Proof.
  revert k. induction fuel as [|fuel IH]; intros k; [done|].
  rewrite shuffleUntilSolvable_S. destruct (permutationProof _ _).
  - intros [= <-]. exists 0%nat. split; [lia|].
    by replace (k + 0 * _)%nat with k by lia.
  - intros (n & Hn & ->)%IH. exists (S n). split; [lia|].
    f_equal. lia.
Qed.

(** X3. Without a stored fixed shuffle [getShuffleArray] never throws and
    leaves the game as it is; what it returns is one of the first [fuel]
    random shuffles, a rearrangement of [0 .. tileCnt-1] that
    [permutationProof] accepts; and its loop is still running after [fuel]
    rounds exactly when none of the first [fuel] random shuffles is
    accepted. *)
Theorem getShuffleArray_random (fuel : nat) (rnd : nat → Q) (g : SPGame) :
  fixedShuffleArr g = None →
  match getShuffleArray fuel rnd g with
  | Returned arr g' =>
      g' = g ∧ arr ≡ₚ seqZ 0 (tileCnt g)
      ∧ permutationProof (puzzleShape g) arr = true
      ∧ ∃ n, (n < fuel)%nat ∧ arr = attempt rnd (tileCnt g) n
  | Thrown _ _ => False
  | Diverged =>
      ∀ n, (n < fuel)%nat →
        permutationProof (puzzleShape g) (attempt rnd (tileCnt g) n) = false
  end.
Proof.
  intros Hfix. rewrite getShuffleArray_spec. unfold shuffleChoice.
  rewrite Hfix.
  destruct (shuffleUntilSolvable fuel rnd 0 _ _) as [arr|] eqn:Hloop.
  - split; [done|].
    destruct (shuffleUntilSolvable_Some _ _ _ _ _ _ Hloop) as [Hperm Hsolv].
    split; [done|]. split; [done|].
    by apply shuffleUntilSolvable_attempt in Hloop.
  - intros n Hn.
    exact (proj1 (shuffleUntilSolvable_None _ _ _ _ _) Hloop n Hn).
Qed.

Lemma getShuffleArray_random_witness :
  match getShuffleArray 1 noRandom example_random with
  | Returned arr g' =>
      g' = example_random ∧ arr ≡ₚ seqZ 0 (tileCnt example_random)
      ∧ permutationProof (puzzleShape example_random) arr = true
      ∧ ∃ n, (n < 1)%nat ∧ arr = attempt noRandom (tileCnt example_random) n
  | Thrown _ _ => False
  | Diverged =>
      ∀ n, (n < 1)%nat →
        permutationProof (puzzleShape example_random)
          (attempt noRandom (tileCnt example_random) n) = false
  end.
Proof. apply (getShuffleArray_random 1 noRandom example_random). reflexivity. Defined.

(** ** The identity arrangement *)

Lemma inversions_sorted (l : list Z) :
  StronglySorted Z.le l → inversions l = 0.
Proof.
  induction 1 as [|a l _ IH Hall]; [done|]. simpl.
  rewrite filter_none, IH; [done|].
  eapply Forall_impl; [exact Hall|]. intros b. simpl. lia.
Qed.

Lemma nonVoid_identity (n : Z) :
  1 ≤ n → nonVoid (n - 1) (seqZ 0 n) = seqZ 0 (n - 1).
Proof.
  intros Hn. unfold nonVoid.
  assert (seqZ 0 n = seqZ 0 (n - 1) ++ seqZ (0 + (n - 1)) 1) as ->.
  { rewrite <- seqZ_app by lia. f_equal. lia. }
  rewrite filter_app, filter_all, filter_none.
  - by rewrite app_nil_r.
  - apply Forall_forall. intros v. rewrite elem_of_seqZ. lia.
  - apply Forall_forall. intros v. rewrite elem_of_seqZ. lia.
Qed.

Lemma permutationProof_identity (rows columns : Z) :
  1 ≤ rows → 1 ≤ columns →
  permutationProof (Vector2.New rows columns) (seqZ 0 (rows * columns)) = true.
Proof.
  intros Hr Hc. assert (HN : 1 ≤ rows * columns) by nia.
  unfold permutationProof.
  rewrite (permutationSum_inversions (rows * columns)) by done.
  rewrite nonVoid_identity, inversions_sorted by (done || apply seqZ_sorted).
  rewrite length_seqZ, Z2Nat.id by lia. simpl.
  rewrite (indexOf_lookup _ _ (Z.to_nat (rows * columns - 1)))
    by (apply NoDup_seqZ || (apply lookup_seqZ; lia)).
  rewrite Z2Nat.id by lia. unfold js_floor_div.
  assert ((rows * columns - 1) / columns = rows - 1) as ->.
  { replace (rows * columns - 1) with ((rows - 1) * columns + (columns - 1))
      by lia.
    rewrite Z.div_add_l, Z.div_small by lia. lia. }
  case_bool_decide; [done|].
  replace (rows - (rows - 1)) with 1 by lia. done.
Qed.

(** X4. The identity arrangement passes [permutationProof] for every
    shape: its accumulator is 0 and the void tile is in the bottom row.  So
    it is only the first check of [setfixedShuffleArr] that keeps it from
    being stored as a fixed shuffle. *)
Theorem identity_is_solvable (rows columns : Z) (g : SPGame) :
  1 ≤ rows → 1 ≤ columns →
  puzzleShape g = Vector2.New rows columns → tileCnt g = rows * columns →
  permutationSum (seqZ 0 (rows * columns)) = 0 ∧
  permutationProof (Vector2.New rows columns) (seqZ 0 (rows * columns)) = true ∧
  setfixedShuffleArr (seqZ 0 (rows * columns)) g = Thrown NotAShuffle g.
Proof.
  intros Hr Hc Hs Hn. assert (HN : 1 ≤ rows * columns) by nia.
  split; [|split].
  - rewrite (permutationSum_inversions (rows * columns)) by done.
    by rewrite nonVoid_identity, inversions_sorted by (done || apply seqZ_sorted).
  - by apply permutationProof_identity.
  - rewrite setfixedShuffleArr_spec, Hn. by rewrite bool_decide_eq_true_2.
Qed.

Lemma identity_is_solvable_witness :
  permutationProof (Vector2.New 4 4) (seqZ 0 (4 * 4)) = true.
Proof.
  refine (proj1 (proj2 (identity_is_solvable 4 4 (blank (Vector2.New 4 4))
                          _ _ _ _))); (lia || reflexivity).
Defined.

(** ** A random shuffle that shuffles nothing *)

Lemma keepingOracle_contract (cnt : Z) (k : nat) :
  (0 <= keepingOracle cnt k)%Q ∧ (keepingOracle cnt k < 1)%Q.
Proof.
  unfold keepingOracle, Qle, Qlt. simpl. split; lia.
Qed.

Lemma keepingOracle_index (cnt : Z) (k i : nat) :
  (Z.to_nat cnt - 1 - k)%nat = i →
  randomIndex (keepingOracle cnt) k i = Z.of_nat i.
Proof.
  intros Hi. unfold randomIndex, keepingOracle. rewrite Hi.
  unfold Qfloor, Qmult, inject_Z. simpl.
  rewrite Pos.mul_1_r.
  replace (Z.pos (Pos.of_nat (S i))) with (Z.of_nat i + 1) by lia.
  apply Z.div_mul. lia.
Qed.

Lemma swapItems_same (arr : list Z) (i : nat) : swapItems arr i i = arr.
Proof.
  unfold swapItems. destruct (arr !! i) as [a|] eqn:Ha; [|done].
  rewrite list_insert_insert_eq. by apply list_insert_id.
Qed.

Lemma shuffleFrom_keeping (cnt : Z) (k i : nat) (arr : list Z) :
  (k + i = Z.to_nat cnt - 1)%nat →
  shuffleFrom (keepingOracle cnt) k i arr = arr.
Proof.
  revert k. induction i as [|i IH]; intros k Hk; [done|].
  simpl. rewrite keepingOracle_index by lia.
  rewrite bool_decide_eq_true_2 by lia.
  rewrite Nat2Z.id, swapItems_same. apply IH. lia.
Qed.

Lemma attempt_keeping (cnt : Z) :
  attempt (keepingOracle cnt) cnt 0 = seqZ 0 cnt.
Proof.
  unfold attempt, shuffle. apply shuffleFrom_keeping.
  rewrite length_seqZ. lia.
Qed.

(** X5. The random mode does not exclude the identity: for every game that
    is not running and has no fixed shuffle there is an oracle within the
    contract of [Math.random] with which a click starts the game ([start]
    invoked, [isRunning] true) with every tile on its origin cell; no
    completion is reported ([finish] is not invoked). *)
Theorem random_start_can_be_solved (fuel : nat) (hit : option nat)
    (g : SPGame) :
  reachable g → isRunning g = false → fixedShuffleArr g = None →
  (0 < fuel)%nat →
  ∃ (rnd : nat → Q) (g' : SPGame),
    (∀ k, (0 <= rnd k)%Q ∧ (rnd k < 1)%Q) ∧
    handle fuel (ParentClick hit rnd) g = Returned tt g' ∧
    isRunning g' = true ∧
    invoked g' = invoked g ++ [Start] ∧
    Forall (λ t, gridCurrent t = gridOrigin t) (tiles g').
Proof.
  intros Hinv%reachable_grid_inv Hrun Hfix Hfuel.
  pose proof (inv_rows g Hinv) as Hr. pose proof (inv_columns g Hinv) as Hc.
  pose proof (inv_tileCnt g Hinv) as Hn.
  exists (keepingOracle (tileCnt g)), (started g (seqZ 0 (tileCnt g))).
  split; [apply keepingOracle_contract|].
  assert (Hchoice : shuffleChoice fuel (keepingOracle (tileCnt g)) g
                    = Some (seqZ 0 (tileCnt g))).
  { assert (Hfirst : firstSolvable (keepingOracle (tileCnt g)) (puzzleShape g)
                       (tileCnt g) 0).
    { split; [|intros m Hm; lia]. rewrite attempt_keeping, Hn.
      destruct (puzzleShape g) as [rows columns]. simpl in *.
      apply permutationProof_identity; lia. }
    rewrite (shuffleChoice_random _ _ _ 0) by done.
    by rewrite attempt_keeping. }
  split.
  { simpl. unfold tileParentClick.
    rewrite gamePlay_start by auto using inv_voidTile. by rewrite Hchoice. }
  do 2 (split; [done|]). simpl.
  apply Forall_fmap, Forall_lookup. intros i t Ht. simpl.
  destruct (inv_lookup g i t Hinv Ht) as [Hidx Horigin].
  rewrite Horigin, Hidx. f_equal.
  apply indexOf_lookup; [apply NoDup_seqZ|].
  apply lookup_seqZ. apply lookup_lt_Some in Ht.
  rewrite (inv_length g Hinv) in Ht. lia.
Qed.

Lemma random_start_can_be_solved_witness :
  ∃ (rnd : nat → Q) (g' : SPGame),
    (∀ k, (0 <= rnd k)%Q ∧ (rnd k < 1)%Q) ∧
    handle 1 (ParentClick None rnd) example_random = Returned tt g' ∧
    isRunning g' = true ∧
    invoked g' = invoked example_random ++ [Start] ∧
    Forall (λ t, gridCurrent t = gridOrigin t) (tiles g').
Proof.
  apply (random_start_can_be_solved 1 None example_random
           example_random_reachable); (reflexivity || lia).
Defined.

(** ** Clicks that change nothing *)

(** X6. While the game runs, a click is dropped when the input is locked
    or when it resolved to no tile: the game object is left exactly as it
    was and no action is invoked.  A click on a part of a tile
    ([tileChildClick]) that resolved to no entity is dropped even when the
    game is not running, whereas the same click on a tile itself
    ([tileParentClick]) starts the game. *)
Theorem dropped_clicks (fuel : nat) (rnd : nat → Q) (g : SPGame) :
  (isRunning g = true →
   ∀ hit, lockedInput g = true ∨ hit = None →
     handle fuel (ParentClick hit rnd) g = Returned tt g ∧
     handle fuel (ChildClick hit rnd) g = Returned tt g) ∧
  handle fuel (ChildClick None rnd) g = Returned tt g ∧
  (isRunning g = false → is_Some (voidTile g) →
   ∀ arr, shuffleChoice fuel rnd g = Some arr →
     handle fuel (ParentClick None rnd) g = Returned tt (started g arr)).
Proof.
  split; [|split].
  - intros Hrun hit Hcase. simpl. unfold tileParentClick, tileChildClick.
    rewrite gamePlay_ignored by done. split; [done|].
    destruct hit as [t|]; [|done].
    apply gamePlay_ignored; [done|]. destruct Hcase; [by left|done].
  - done.
  - intros Hrun Hvt arr Harr. simpl. unfold tileParentClick.
    by rewrite gamePlay_start, Harr.
Qed.

Lemma dropped_clicks_witness :
  handle 0 (ParentClick (Some 0%nat) noRandom) example_moving
  = Returned tt example_moving.
Proof.
  refine (proj1 (proj1 (dropped_clicks 0 noRandom example_moving) _
                   (Some 0%nat) _)); [reflexivity|left; reflexivity].
Defined.

(** ** [reShuffle] *)

(** X7. [reShuffle] with an array that the validation rejects (the
    identity, not a rearrangement of all tile indices, or not solvable)
    throws after it has stopped the game: [isRunning] is false afterwards,
    while the tiles, the stored fixed shuffle, the visibility of the void
    tile and the input lock are as before, and no action is invoked. *)
Theorem rejected_reShuffle_stops_game (fuel : nat) (rnd : nat → Q)
    (arr : list Z) (g : SPGame) :
  arr = seqZ 0 (tileCnt g) ∨ ¬ arr ≡ₚ seqZ 0 (tileCnt g)
  ∨ permutationProof (puzzleShape g) arr = false →
  ∃ e, reShuffle fuel rnd (Some arr) g = Thrown e (set_isRunning false g) ∧
       e ∈ [NotAShuffle; MissingTileIndices; NotSolvable].
Proof.
  intros Hbad. unfold reShuffle. run_method.
  rewrite setfixedShuffleArr_spec. simpl.
  case_bool_decide as Hid; [eexists; split; [done|rewrite !elem_of_cons; auto]|].
  case_bool_decide as Hsort; [eexists; split; [done|rewrite !elem_of_cons; auto]|].
  case_bool_decide as Hsolv; [eexists; split; [done|rewrite !elem_of_cons; auto]|].
  exfalso. destruct Hbad as [?|[Hnot|?]]; [done| |done].
  apply Hnot, sort_ascending_identity.
  by destruct (decide (sort_ascending arr = seqZ 0 (tileCnt g))).
Qed.

Lemma rejected_reShuffle_stops_game_witness :
  ∃ e, reShuffle 0 noRandom (Some [1; 0; 2; 3; 4; 5]) example_running
       = Thrown e (set_isRunning false example_running) ∧
       e ∈ [NotAShuffle; MissingTileIndices; NotSolvable].
Proof.
  apply (rejected_reShuffle_stops_game 0 noRandom [1; 0; 2; 3; 4; 5]
           example_running).
  right. right. reflexivity.
Defined.

(** X8. [reShuffle] with an array that passes the validation restarts the
    game whatever its state was (running or not, input locked or not): the
    array is stored as the fixed shuffle, [start] is invoked, the void tile
    is hidden, the tile with index [n] is put on the cell of the position
    where the array holds [n], and [isRunning] is true.  The input lock and
    a move in flight are left as they are. *)
Theorem accepted_reShuffle_restarts (fuel : nat) (rnd : nat → Q)
    (arr : list Z) (g : SPGame) :
  reachable g →
  arr ≠ seqZ 0 (tileCnt g) → arr ≡ₚ seqZ 0 (tileCnt g) →
  permutationProof (puzzleShape g) arr = true →
  ∃ g' : SPGame,
    reShuffle fuel rnd (Some arr) g = Returned tt g' ∧
    fixedShuffleArr g' = Some arr ∧
    invoked g' = invoked g ++ [Start] ∧
    voidAlive g' = false ∧
    isRunning g' = true ∧
    lockedInput g' = lockedInput g ∧ moving g' = moving g ∧
    (∀ (p : nat) (n : Z), arr !! p = Some n →
       gridCurrent <$> tiles g' !! Z.to_nat n
       = Some (gridPosition (puzzleShape g) (Z.of_nat p))).
Proof.
  intros Hinv%reachable_grid_inv Hid Hperm Hsolv.
  set (g0 := set_fixedShuffleArr (Some arr) (set_isRunning false g)).
  exists (started g0 arr). split.
  { unfold reShuffle. run_method. rewrite setfixedShuffleArr_spec. simpl.
    rewrite bool_decide_eq_false_2 by done.
    rewrite (bool_decide_eq_false_2 (_ ≠ _))
      by (intros Hn; by apply Hn, sort_ascending_identity).
    rewrite bool_decide_eq_false_2 by congruence.
    fold g0. rewrite gamePlay_start; [done|done|].
    by apply (inv_voidTile g). }
  do 6 (split; [done|]).
  intros p n Hp.
  assert (Hnd : NoDup arr) by (rewrite Hperm; apply NoDup_seqZ).
  assert (Hn : 0 ≤ n < tileCnt g).
  { apply list_elem_of_lookup_2 in Hp. rewrite Hperm in Hp.
    apply elem_of_seqZ in Hp. lia. }
  destruct (lookup_lt_is_Some_2 (tiles g) (Z.to_nat n)) as [t Ht].
  { rewrite (inv_length g Hinv). lia. }
  destruct (inv_lookup g _ t Hinv Ht) as [Hidx _].
  simpl. rewrite !list_lookup_fmap, Ht. simpl.
  rewrite Hidx, Z2Nat.id by lia.
  by rewrite (indexOf_lookup arr n p Hnd Hp).
Qed.

Lemma accepted_reShuffle_restarts_witness :
  ∃ g' : SPGame,
    reShuffle 0 noRandom (Some [1; 2; 0; 3; 4; 5]) example_moving
    = Returned tt g' ∧
    fixedShuffleArr g' = Some [1; 2; 0; 3; 4; 5] ∧
    invoked g' = invoked example_moving ++ [Start] ∧
    voidAlive g' = false ∧
    isRunning g' = true ∧
    lockedInput g' = lockedInput example_moving ∧
    moving g' = moving example_moving ∧
    (∀ (p : nat) (n : Z), [1; 2; 0; 3; 4; 5] !! p = Some n →
       gridCurrent <$> tiles g' !! Z.to_nat n
       = Some (gridPosition (puzzleShape example_moving) (Z.of_nat p))).
Proof.
  apply (accepted_reShuffle_restarts 0 noRandom [1; 2; 0; 3; 4; 5]
           example_moving example_moving_reachable);
    [discriminate| |reflexivity].
  change (seqZ 0 (tileCnt example_moving)) with [0; 1; 2; 3; 4; 5].
  etransitivity; [apply perm_skip, perm_swap|]. apply perm_swap.
Defined.

(** ** What a validated fixed shuffle is *)

(** X9. [setfixedShuffleArr] stores the array exactly when it is a
    rearrangement of [0 .. tileCnt-1] other than the identity that
    [permutationProof] accepts; then nothing but the stored fixed shuffle
    changes. *)
Theorem setfixedShuffleArr_accepts_iff (g : SPGame) (arr : list Z) :
  ((∃ g', setfixedShuffleArr arr g = Returned tt g') ↔
   (arr ≠ seqZ 0 (tileCnt g) ∧ arr ≡ₚ seqZ 0 (tileCnt g)
    ∧ permutationProof (puzzleShape g) arr = true)) ∧
  (∀ g', setfixedShuffleArr arr g = Returned tt g' →
     g' = set_fixedShuffleArr (Some arr) g).
Proof.
  rewrite setfixedShuffleArr_spec.
  pose proof (sort_ascending_identity arr (tileCnt g)) as Hsort.
  split; [|intros g'; repeat case_bool_decide; by intros [=]].
  case_bool_decide as Hid; [split; [by intros [g' ?]|by intros [? _]]|].
  case_bool_decide as Hs.
  { split; [by intros [g' ?]|]. intros (_ & Hperm & _).
    exfalso. by apply Hs, Hsort. }
  case_bool_decide as Hsolv.
  { split; [by intros [g' ?]|]. intros (_ & _ & Htrue). congruence. }
  split; [|by eexists]. intros _. split; [done|]. split.
  - apply Hsort. by destruct (decide (sort_ascending arr = seqZ 0 (tileCnt g))).
  - by destruct (permutationProof (puzzleShape g) arr).
Qed.

(** ** What no event changes *)

Lemma repositionAll_index (shape : Vector2) (f : SPTile → Z)
    (l : list SPTile) :
  index <$> ((λ x, repositionTile shape x (f x)) <$> l) = index <$> l ∧
  gridOrigin <$> ((λ x, repositionTile shape x (f x)) <$> l)
  = gridOrigin <$> l.
Proof. by rewrite <- !list_fmap_compose. Qed.


Lemma sameTiles_frame (g g' : SPGame) :
  tiles g' = tiles g → puzzleShape g' = puzzleShape g →
  tileCnt g' = tileCnt g → sameTiles g g'.
Proof. intros Ht Hs Hn. unfold sameTiles. by rewrite Ht, Hs, Hn. Qed.

Lemma sameTiles_trans (g1 g2 g3 : SPGame) :
  sameTiles g1 g2 → sameTiles g2 g3 → sameTiles g1 g3.
Proof.
  intros (H1 & H2 & H3 & H4) (K1 & K2 & K3 & K4).
  unfold sameTiles. by rewrite K1, K2, K3, K4.
Qed.

Lemma sameTiles_voidTileVisibility (enable : bool) (g g' : SPGame) :
  after (voidTileVisibility enable g) = Some g' → sameTiles g g'.
Proof.
  unfold voidTileVisibility. run_cases; intros [= <-]; by apply sameTiles_frame.
Qed.

Lemma sameTiles_checkAndFinish (g g' : SPGame) :
  after (checkAndFinish g) = Some g' → sameTiles g g'.
Proof.
  destruct (voidTile g) as [vt|] eqn:Hvt.
  - rewrite (checkAndFinish_spec g vt Hvt). simpl.
    destruct (_ && _); intros [= <-]; by apply sameTiles_frame.
  - unfold checkAndFinish. run_method. rewrite Hvt.
    intros [= <-]. by apply sameTiles_frame.
Qed.

Lemma sameTiles_gamePlay fuel rnd tile (g g' : SPGame) :
  after (gamePlay fuel rnd tile g) = Some g' → sameTiles g g'.
Proof.
  destruct (isRunning g) eqn:Hrun.
  - unfold gamePlay, gameTurn. run_method. rewrite Hrun. simpl.
    run_cases; intros [= <-]; by apply sameTiles_frame.
  - destruct (voidTile g) as [vt|] eqn:Hvt.
    + rewrite gamePlay_start by (done || by eexists).
      destruct (shuffleChoice fuel rnd g); [|done]. intros [= <-].
      unfold sameTiles. simpl. by rewrite <- !list_fmap_compose.
    + unfold gamePlay, voidTileVisibility. run_method.
      rewrite Hrun. simpl. unfold voidTile in *. simpl. rewrite Hvt.
      intros [= <-]. by apply sameTiles_frame.
Qed.

Lemma sameTiles_moveFinished (g g' : SPGame) :
  after (moveFinished g) = Some g' → sameTiles g g'.
Proof.
  unfold moveFinished. run_method.
  destruct (moving g) as [t|]; [|intros [= <-]; by apply sameTiles_frame].
  destruct (tiles g !! t) as [tComp|] eqn:Ht; simpl;
    [|intros [= <-]; by apply sameTiles_frame].
  destruct (voidTile _) as [vtComp|]; simpl;
    [|intros [= <-]; by apply sameTiles_frame].
  rewrite !clone_id.
  match goal with
  | |- context [checkAndFinish ?s] =>
      pose proof (λ s', sameTiles_checkAndFinish s s') as Hcheck;
      assert (Hswap : sameTiles g s);
      [|destruct (checkAndFinish s) as [b g1|e g1|]]
  end; simpl in *; [| | |done].
  - unfold sameTiles. simpl. fold (swappedTiles g t tComp vtComp).
    by rewrite swappedTiles_index, swappedTiles_origin.
  - intros [= <-]. eapply sameTiles_trans; [exact Hswap|].
    eapply sameTiles_trans; [by apply Hcheck|]. by apply sameTiles_frame.
  - intros [= <-]. eapply sameTiles_trans; [exact Hswap|]. by apply Hcheck.
Qed.

Lemma sameTiles_resolve (g g' : SPGame) :
  after (resolve g) = Some g' → sameTiles g g'.
Proof.
  unfold resolve. run_method.
  match goal with
  | |- context [voidTileVisibility true ?s] =>
      pose proof (λ s', sameTiles_voidTileVisibility true s s') as Hvis;
      assert (Hmap : sameTiles g s);
      [|destruct (voidTileVisibility true s) as [b g1|e g1|]]
  end; simpl in *; [| | |done].
  - unfold sameTiles. simpl. by rewrite <- !list_fmap_compose.
  - intros [= <-]. eapply sameTiles_trans; [exact Hmap|]. by apply Hvis.
  - intros [= <-]. eapply sameTiles_trans; [exact Hmap|]. by apply Hvis.
Qed.

Lemma sameTiles_reShuffle fuel rnd new (g g' : SPGame) :
  after (reShuffle fuel rnd new g) = Some g' → sameTiles g g'.
Proof.
  unfold reShuffle. run_method. destruct new as [arr|].
  - rewrite setfixedShuffleArr_spec. simpl.
    repeat case_bool_decide;
      try (intros [= <-]; by apply sameTiles_frame).
    intros Hplay%sameTiles_gamePlay.
    eapply sameTiles_trans; [|exact Hplay]. by apply sameTiles_frame.
  - intros Hplay%sameTiles_gamePlay.
    eapply sameTiles_trans; [|exact Hplay]. by apply sameTiles_frame.
Qed.

(** X10. No click, callback, [reShuffle] or [resolve] changes the shape
    of the puzzle, the tile count, the index or the origin cell of a tile,
    or the number of tiles, whatever the state of the game object and
    whether the method returns or throws. *)
Theorem events_keep_tiles_identity (fuel : nat) (ev : Event) (g g' : SPGame) :
  after (handle fuel ev g) = Some g' →
  puzzleShape g' = puzzleShape g ∧ tileCnt g' = tileCnt g ∧
  length (tiles g') = length (tiles g) ∧
  index <$> tiles g' = index <$> tiles g ∧
  gridOrigin <$> tiles g' = gridOrigin <$> tiles g.
Proof.
  intros Hafter.
  assert (Hsame : sameTiles g g').
  { destruct ev as [hit rnd|[t|] rnd| |arr rnd|]; simpl in Hafter.
    - by eapply sameTiles_gamePlay.
    - by eapply sameTiles_gamePlay.
    - injection Hafter as <-. by apply sameTiles_frame.
    - by apply sameTiles_moveFinished.
    - by eapply sameTiles_reShuffle.
    - by apply sameTiles_resolve. }
  destruct Hsame as (Hs & Hn & Hi & Ho). do 2 (split; [done|]).
  split; [|done]. by rewrite <- (length_fmap index), Hi, length_fmap.
Qed.

Lemma events_keep_tiles_identity_witness :
  index <$> tiles example_moving = index <$> tiles example_running ∧
  gridOrigin <$> tiles example_moving = gridOrigin <$> tiles example_running.
Proof.
  destruct (events_keep_tiles_identity 0 (ParentClick (Some 4%nat) noRandom)
              example_running example_moving eq_refl) as (_ & _ & _ & Hi & Ho).
  by split.
Defined.

(** ** The input lock *)

Lemma move_inv_frame (g g' : SPGame) :
  lockedInput g' = lockedInput g → moving g' = moving g →
  length (tiles g') = length (tiles g) → move_inv g → move_inv g'.
Proof. intros Hl Hm Ht. unfold move_inv. by rewrite Hl, Hm, Ht. Qed.

(** The callback of a move in a state that satisfies both invariants. *)
Lemma moveFinished_in_flight (g : SPGame) (t : nat) :
  grid_inv g → move_inv g → moving g = Some t →
  ∃ (tComp vtComp : SPTile) (b : bool),
    tiles g !! t = Some tComp ∧ voidTile g = Some vtComp ∧
    moveFinished g =
      Returned tt
        (set_lockedInput false
           (let s := set_tiles (swappedTiles g t tComp vtComp)
                       (set_moving None g) in
            if b then finished s else s)).
Proof.
  intros Hinv [_ Hrange] Hmov.
  destruct (lookup_lt_is_Some_2 (tiles g) t) as [tComp Ht]; [by apply Hrange|].
  destruct (inv_voidTile g Hinv) as [vtComp Hvt].
  pose proof (inv_tileCnt_ge g Hinv).
  exists tComp, vtComp.
  rewrite (moveFinished_spec g t tComp vtComp) by (done || lia).
  set (s := set_tiles _ _).
  assert (Hinv' : grid_inv s) by by apply (grid_inv_swapped g _ t tComp vtComp).
  destruct (inv_voidTile s Hinv') as [vt' Hvt'].
  rewrite (checkAndFinish_spec s vt' Hvt'). cbv zeta.
  eexists. split; [done|]. split; [done|]. reflexivity.
Qed.

Lemma move_inv_gamePlay fuel rnd tile (g g' : SPGame) :
  grid_inv g → move_inv g →
  after (gamePlay fuel rnd tile g) = Some g' → move_inv g'.
Proof.
  intros Hinv Hmove. destruct (isRunning g) eqn:Hrun.
  - destruct tile as [t|];
      [|rewrite gamePlay_ignored by auto; by intros [= <-]].
    destruct (lockedInput g) eqn:Hlock;
      [rewrite gamePlay_ignored by auto; by intros [= <-]|].
    destruct (inv_voidTile g Hinv) as [vtComp Hvt].
    destruct (tiles g !! t) as [tComp|] eqn:Ht.
    + rewrite (gamePlay_click _ _ _ _ tComp vtComp) by done.
      case_bool_decide; intros [= <-].
      * split; simpl; [by split; [eexists|]|].
        intros t' [= <-]. by eapply lookup_lt_Some.
      * by apply (move_inv_frame g).
    + unfold gamePlay. run_method. rewrite Hrun, Hlock, Hvt, Ht. simpl.
      by intros [= <-].
  - rewrite gamePlay_start by auto using inv_voidTile.
    destruct (shuffleChoice fuel rnd g) as [arr|]; [|done].
    intros [= <-]. apply (move_inv_frame g); try done.
    simpl. by rewrite length_fmap.
Qed.

Lemma move_inv_handle fuel ev (g g' : SPGame) :
  grid_inv g → move_inv g →
  after (handle fuel ev g) = Some g' → move_inv g'.
Proof.
  intros Hinv Hmove.
  destruct ev as [hit rnd|[t|] rnd| |arr rnd|]; simpl.
  - by apply move_inv_gamePlay.
  - by apply move_inv_gamePlay.
  - by intros [= <-].
  - destruct (moving g) as [t|] eqn:Hmov.
    + destruct (moveFinished_in_flight g t Hinv Hmove Hmov)
        as (tComp & vtComp & b & Ht & Hvt & ->).
      intros [= <-]. split.
      * destruct b; simpl; split; [done|by intros []|done|by intros []].
      * destruct b; simpl; done.
    + unfold moveFinished. run_method. rewrite Hmov. by intros [= <-].
  - unfold reShuffle. run_method.
    assert (Hinv0 : grid_inv (set_isRunning false g))
      by by apply (grid_inv_frame g).
    assert (Hmove0 : move_inv (set_isRunning false g))
      by by apply (move_inv_frame g).
    destruct arr as [arr|].
    + rewrite setfixedShuffleArr_spec. simpl.
      repeat case_bool_decide; try by intros [= <-].
      apply move_inv_gamePlay; [|by apply (move_inv_frame g)].
      assert (Hperm : arr ≡ₚ seqZ 0 (tileCnt g)).
      { apply sort_ascending_identity.
        by destruct (decide (sort_ascending arr = seqZ 0 (tileCnt g))). }
      pose proof Hinv as [K1 K2 K3 K4 K5 K6 K7].
      split; try done. simpl. by intros a [= <-].
    + apply move_inv_gamePlay; [|by apply (move_inv_frame g)].
      pose proof Hinv as [K1 K2 K3 K4 K5 K6 K7]. by split.
  - rewrite resolve_spec by by apply inv_voidTile.
    intros [= <-]. apply (move_inv_frame g); try done.
    simpl. by rewrite length_fmap.
Qed.

Lemma gamePlay_no_tile_lock fuel rnd (g g' : SPGame) :
  after (gamePlay fuel rnd None g) = Some g' →
  lockedInput g' = lockedInput g ∧ moving g' = moving g.
Proof.
  destruct (isRunning g) eqn:Hrun.
  - rewrite gamePlay_ignored by auto. by intros [= <-].
  - destruct (voidTile g) as [vt|] eqn:Hvt.
    + rewrite gamePlay_start by (done || by eexists).
      destruct (shuffleChoice fuel rnd g); [|done]. by intros [= <-].
    + unfold gamePlay, voidTileVisibility. run_method.
      rewrite Hrun. simpl. unfold voidTile in *. simpl. rewrite Hvt.
      by intros [= <-].
Qed.

Lemma move_inv_construct fuel rnd setup (g : SPGame) :
  construct fuel rnd setup = Returned tt g → move_inv g.
Proof.
  intros Hc.
  assert (lockedInput g = false ∧ moving g = None) as [Hl Hm].
  { revert Hc. unfold construct, init.
    destruct (init_checks _ _ _ _); [done|]. run_method.
    set (g0 := blank _).
    assert (Hfix : ∀ g1, after (match setup_fixedShuffle setup with
                                | Some arr => setfixedShuffleArr arr
                                | None => λ g, Returned tt g
                                end g0) = Some g1 →
              lockedInput g1 = false ∧ moving g1 = None).
    { intros g1. destruct (setup_fixedShuffle setup) as [arr|].
      - by intros [->|[-> _]]%setfixedShuffleArr_after.
      - by intros [= <-]. }
    destruct (match setup_fixedShuffle setup with
              | Some arr => setfixedShuffleArr arr
              | None => _ end g0) as [[] g1|e g1|]; [|done..].
    destruct (Hfix g1 eq_refl) as [Hl1 Hm1].
    destruct (default false (setup_startShuffle setup)).
    - match goal with
      | |- context [gamePlay fuel rnd None ?s] =>
          pose proof (λ s', gamePlay_no_tile_lock fuel rnd s s') as Hplay;
          destruct (gamePlay fuel rnd None s) as [[] g2|e g2|]
      end; [|done..].
      destruct (Hplay g2 eq_refl) as [Hl2 Hm2]. simpl in *.
      destruct (default true (setup_addToEngine setup)); intros [= <-];
        simpl; by rewrite Hl2, Hm2.
    - destruct (default true (setup_addToEngine setup)); by intros [= <-]. }
  split; [rewrite Hl, Hm; split; [done|by intros []]|by rewrite Hm].
Qed.

Lemma reachable_move_inv (g : SPGame) : reachable g → move_inv g.
Proof.
  induction 1 as [fuel rnd setup g Hc|fuel ev g g' Hreach IH Hstep].
  - by eapply move_inv_construct.
  - eapply move_inv_handle; [|exact IH|exact Hstep].
    by apply reachable_grid_inv.
Qed.

(** X11. In every state a game goes through the input is locked exactly
    while a move is in flight, the tile in flight is a tile of the game,
    and the callback of that move returns, releases the lock and leaves no
    move in flight: a locked game is unlocked by its own callback. *)
Theorem lock_held_while_moving (g : SPGame) :
  reachable g →
  (lockedInput g = true ↔ is_Some (moving g)) ∧
  (∀ t, moving g = Some t → is_Some (tiles g !! t)) ∧
  (lockedInput g = true →
   ∀ fuel, ∃ g', handle fuel AnimationDone g = Returned tt g' ∧
                 lockedInput g' = false ∧ moving g' = None).
Proof.
  intros Hreach.
  pose proof (reachable_grid_inv g Hreach) as Hinv.
  pose proof (reachable_move_inv g Hreach) as Hmove.
  destruct Hmove as [Hlock Hrange] eqn:Heq. clear Heq.
  split; [done|]. split.
  - intros t Ht. by apply lookup_lt_is_Some_2, Hrange.
  - intros [t Hmov]%Hlock fuel. simpl.
    destruct (moveFinished_in_flight g t Hinv (conj Hlock Hrange) Hmov)
      as (tComp & vtComp & b & Ht & Hvt & ->).
    eexists. split; [done|]. by destruct b.
Qed.

Lemma lock_held_while_moving_witness :
  ∃ g', handle 0 AnimationDone example_moving = Returned tt g' ∧
        lockedInput g' = false ∧ moving g' = None.
Proof.
  destruct (lock_held_while_moving example_moving example_moving_reachable)
    as (_ & _ & Hunlock).
  apply Hunlock. reflexivity.
Defined.

(** ** What the handlers throw *)

Lemma gamePlay_no_throw fuel rnd tile (g : SPGame) :
  grid_inv g → (∀ t, tile = Some t → is_Some (tiles g !! t)) →
  ∀ e g', gamePlay fuel rnd tile g ≠ Thrown e g'.
Proof.
  intros Hinv Htile e g'. destruct (isRunning g) eqn:Hrun.
  - destruct tile as [t|]; [|by rewrite gamePlay_ignored by auto].
    destruct (lockedInput g) eqn:Hlock;
      [by rewrite gamePlay_ignored by auto|].
    destruct (inv_voidTile g Hinv) as [vtComp Hvt].
    destruct (Htile t eq_refl) as [tComp Ht].
    rewrite (gamePlay_click _ _ _ _ tComp vtComp) by done.
    by case_bool_decide.
  - rewrite gamePlay_start by auto using inv_voidTile.
    by destruct (shuffleChoice fuel rnd g).
Qed.

(** X12. In a state a game goes through, a click on one of its tiles (or
    on none), the callback of a move and [resolve] never throw; the only
    method that throws is [reShuffle] with an array, and then the error is
    one of the three of the validation and the game is the old one with
    [isRunning] cleared. *)
Theorem only_validation_throws (fuel : nat) (ev : Event) (g g' : SPGame)
    (e : Error) :
  reachable g → onTile ev g → handle fuel ev g = Thrown e g' →
  ∃ arr rnd,
    ev = CallReShuffle (Some arr) rnd ∧
    e ∈ [NotAShuffle; MissingTileIndices; NotSolvable] ∧
    g' = set_isRunning false g.
Proof.
  intros Hreach Hon.
  pose proof (reachable_grid_inv g Hreach) as Hinv.
  pose proof (reachable_move_inv g Hreach) as Hmove.
  destruct ev as [hit rnd|[t|] rnd| |arr rnd|]; simpl in *.
  - intros Hthrow. exfalso. revert Hthrow. apply gamePlay_no_throw; [done|].
    intros t ->. done.
  - intros Hthrow. exfalso. revert Hthrow. apply gamePlay_no_throw; [done|].
    by intros t' [= <-].
  - done.
  - destruct (moving g) as [t|] eqn:Hmov.
    + destruct (moveFinished_in_flight g t Hinv Hmove Hmov)
        as (tComp & vtComp & b & Ht & Hvt & ->). done.
    + unfold moveFinished. run_method. by rewrite Hmov.
  - unfold reShuffle. run_method.
    assert (Hinv0 : grid_inv (set_isRunning false g))
      by by apply (grid_inv_frame g).
    destruct arr as [arr|].
    + rewrite setfixedShuffleArr_spec. simpl.
      case_bool_decide as Hid;
        [intros [= <- <-]; exists arr, rnd; rewrite !elem_of_cons; auto 10|].
      case_bool_decide as Hsort;
        [intros [= <- <-]; exists arr, rnd; rewrite !elem_of_cons; auto 10|].
      case_bool_decide as Hsolv;
        [intros [= <- <-]; exists arr, rnd; rewrite !elem_of_cons; auto 10|].
      intros Hthrow. exfalso. revert Hthrow.
      apply gamePlay_no_throw; [|done].
      assert (Hperm : arr ≡ₚ seqZ 0 (tileCnt g)).
      { apply sort_ascending_identity.
        by destruct (decide (sort_ascending arr = seqZ 0 (tileCnt g))). }
      pose proof Hinv as [K1 K2 K3 K4 K5 K6 K7].
      split; try done. simpl. by intros a [= <-].
    + intros Hthrow. exfalso. revert Hthrow.
      apply gamePlay_no_throw; [|done].
      pose proof Hinv as [K1 K2 K3 K4 K5 K6 K7]. by split.
  - by rewrite resolve_spec by by apply inv_voidTile.
Qed.

Lemma only_validation_throws_witness :
  ∃ arr rnd,
    CallReShuffle (Some [0; 1; 2; 3; 4; 5]) noRandom
    = CallReShuffle (Some arr) rnd ∧
    NotAShuffle ∈ [NotAShuffle; MissingTileIndices; NotSolvable] ∧
    set_isRunning false example_running = set_isRunning false example_running.
Proof.
  apply (only_validation_throws 0
           (CallReShuffle (Some [0; 1; 2; 3; 4; 5]) noRandom)
           example_running (set_isRunning false example_running) NotAShuffle
           example_running_reachable I).
  reflexivity.
Defined.

(** ** Moves, once more *)

Lemma voidTile_Some_tileCnt (g : SPGame) (vt : SPTile) :
  voidTile g = Some vt → 1 ≤ tileCnt g.
Proof.
  unfold voidTile, array_get. case_bool_decide; [lia|done].
Qed.

(** The callback of the move of tile [t], which is not the void tile. *)
Lemma moveFinished_commit (h : SPGame) (t : nat) (tComp vtComp : SPTile) :
  moving h = Some t → tiles h !! t = Some tComp → voidTile h = Some vtComp →
  t ≠ Z.to_nat (tileCnt h - 1) →
  let s := set_tiles (swappedTiles h t tComp vtComp) (set_moving None h) in
  let b := checkTilePosition (set_gridCurrent (gridCurrent tComp) vtComp)
           && forallb checkTilePosition (slice0 (tiles s) (tileCnt h - 2)) in
  moveFinished h
  = Returned tt (set_lockedInput false (if b then finished s else s)) ∧
  tiles s !! t = Some (set_gridCurrent (gridCurrent vtComp) tComp) ∧
  tiles s !! Z.to_nat (tileCnt h - 1)
  = Some (set_gridCurrent (gridCurrent tComp) vtComp) ∧
  (∀ i, i ≠ t → i ≠ Z.to_nat (tileCnt h - 1) → tiles s !! i = tiles h !! i).
Proof.
  intros Hmov Ht Hvt Hne s b.
  pose proof (voidTile_Some_tileCnt h vtComp Hvt) as Hcnt.
  pose proof Hvt as Hvi. rewrite voidTile_lookup in Hvi by done.
  assert (Hlt : (t < length (tiles h))%nat) by by eapply lookup_lt_Some.
  assert (Htl : tiles s !! t
                = Some (set_gridCurrent (gridCurrent vtComp) tComp)).
  { simpl. unfold swappedTiles.
    rewrite list_lookup_alter_ne by done.
    by rewrite list_lookup_insert_eq by lia. }
  assert (Hvl : tiles s !! Z.to_nat (tileCnt h - 1)
                = Some (set_gridCurrent (gridCurrent tComp) vtComp)).
  { simpl. unfold swappedTiles.
    rewrite list_lookup_alter_eq, list_lookup_insert_ne by done.
    by rewrite Hvi. }
  split; [|split; [done|split; [done|]]].
  - rewrite (moveFinished_spec h t tComp vtComp) by done. fold s.
    rewrite (checkAndFinish_spec s (set_gridCurrent (gridCurrent tComp) vtComp))
      by by rewrite voidTile_lookup.
    reflexivity.
  - intros i Hit Hiv. simpl. unfold swappedTiles.
    rewrite list_lookup_alter_ne by done.
    by rewrite list_lookup_insert_ne by done.
Qed.

Lemma adjacent_not_void (g : SPGame) (t : nat) (tComp vtComp : SPTile) :
  tiles g !! t = Some tComp → voidTile g = Some vtComp →
  Vector2.lengthSquared
    (Vector2.subtract (gridCurrent vtComp) (gridCurrent tComp)) = 1 →
  t ≠ Z.to_nat (tileCnt g - 1).
Proof.
  intros Ht Hvt Hadj ->.
  rewrite voidTile_lookup in Hvt by by eapply voidTile_Some_tileCnt.
  assert (tComp = vtComp) as -> by congruence.
  by rewrite lengthSquared_same in Hadj.
Qed.

Lemma lengthSquared_sym (a b : Vector2) :
  Vector2.lengthSquared (Vector2.subtract a b)
  = Vector2.lengthSquared (Vector2.subtract b a).
Proof. unfold Vector2.lengthSquared, Vector2.subtract. simpl. lia. Qed.

Lemma set_gridCurrent_back (v : Vector2) (t : SPTile) :
  set_gridCurrent (gridCurrent t) (set_gridCurrent v t) = t.
Proof. by destruct t. Qed.

(** X13. A move is undone by a second click on the same tile: after a
    click on a tile next to the void tile and the callback of that move,
    if the game still runs (the move did not complete the puzzle), a click
    on the same tile is again accepted ([willMove]), and after its callback
    every tile is back on the cell it had at the beginning. *)
Theorem second_click_undoes_move (fuel : nat) (rnd : nat → Q) (g : SPGame)
    (t : nat) (tComp vtComp : SPTile) :
  isRunning g = true → lockedInput g = false →
  tiles g !! t = Some tComp → voidTile g = Some vtComp →
  Vector2.lengthSquared
    (Vector2.subtract (gridCurrent vtComp) (gridCurrent tComp)) = 1 →
  ∃ g1 g2 : SPGame,
    gamePlay fuel rnd (Some t) g = Returned tt g1 ∧
    moveFinished g1 = Returned tt g2 ∧
    (isRunning g2 = true →
     ∃ g3 g4 : SPGame,
       gamePlay fuel rnd (Some t) g2 = Returned tt g3 ∧
       invoked g3 = invoked g2 ++ [WillMove] ∧
       moveFinished g3 = Returned tt g4 ∧
       tiles g4 = tiles g).
Proof.
  intros Hrun Hlock Ht Hvt Hadj.
  pose proof (adjacent_not_void g t tComp vtComp Ht Hvt Hadj) as Hne.
  pose proof (voidTile_Some_tileCnt g vtComp Hvt) as Hcnt.
  set (vi := Z.to_nat (tileCnt g - 1)) in *.
  set (g1 := set_moving (Some t)
               (set_lockedInput true (set_invoked (invoked g ++ [WillMove]) g))).
  destruct (moveFinished_commit g1 t tComp vtComp eq_refl Ht Hvt Hne)
    as (Hdone & Htl & Hvl & Hrest).
  set (s := set_tiles (swappedTiles g1 t tComp vtComp) (set_moving None g1))
    in *.
  set (b := checkTilePosition _ && _) in Hdone.
  exists g1. eexists. split.
  { rewrite (gamePlay_click _ _ _ _ tComp vtComp) by done.
    by rewrite bool_decide_eq_true_2. }
  split; [exact Hdone|].
  destruct b; [done|]. intros _.
  set (g2 := set_lockedInput false s).
  set (tComp' := set_gridCurrent (gridCurrent vtComp) tComp).
  set (vtComp' := set_gridCurrent (gridCurrent tComp) vtComp).
  assert (Hvt2 : voidTile g2 = Some vtComp') by by rewrite voidTile_lookup.
  set (g3 := set_moving (Some t)
               (set_lockedInput true
                  (set_invoked (invoked g2 ++ [WillMove]) g2))).
  destruct (moveFinished_commit g3 t tComp' vtComp' eq_refl Htl Hvt2 Hne)
    as (Hdone' & Htl' & Hvl' & Hrest').
  exists g3. eexists. split.
  { rewrite (gamePlay_click _ _ _ _ tComp' vtComp') by done.
    rewrite bool_decide_eq_true_2; [done|].
    simpl. by rewrite lengthSquared_sym. }
  split; [done|]. split; [exact Hdone'|].
  set (s' := set_tiles (swappedTiles g3 t tComp' vtComp') (set_moving None g3))
    in *.
  change (Z.to_nat (tileCnt g3 - 1)) with vi in Hvl', Hrest'.
  change (Z.to_nat (tileCnt g1 - 1)) with vi in Hvl, Hrest.
  assert (Hs' : tiles s' = tiles g).
  { apply list_eq. intros i.
    destruct (decide (i = t)) as [->|Hit].
    { rewrite Htl', Ht. simpl. f_equal. apply set_gridCurrent_back. }
    destruct (decide (i = vi)) as [->|Hiv].
    { rewrite Hvl'. rewrite voidTile_lookup in Hvt by done. fold vi in Hvt.
      rewrite Hvt. simpl. f_equal. apply set_gridCurrent_back. }
    rewrite Hrest' by done. by apply Hrest. }
  by destruct (_ && _).
Qed.

Lemma second_click_undoes_move_witness :
  ∃ g1 g2 : SPGame,
    gamePlay 0 noRandom (Some 1%nat) example_running = Returned tt g1 ∧
    moveFinished g1 = Returned tt g2 ∧
    (isRunning g2 = true →
     ∃ g3 g4 : SPGame,
       gamePlay 0 noRandom (Some 1%nat) g2 = Returned tt g3 ∧
       invoked g3 = invoked g2 ++ [WillMove] ∧
       moveFinished g3 = Returned tt g4 ∧
       tiles g4 = tiles example_running).
Proof.
  apply (second_click_undoes_move 0 noRandom example_running 1
           (mkSPTile 1 (Vector2.New 0 1) (Vector2.New 0 1))
           (mkSPTile 5 (Vector2.New 1 2) (Vector2.New 1 1)));
    reflexivity.
Defined.

(** X14. [resolve] called while a move is in flight does not leave the
    puzzle resolved: [resolve] puts every tile on its origin cell but keeps
    the lock and the pending callback, and when that callback runs it
    exchanges the cells of the moved tile and of the void tile once more.
    The game is then stopped and unlocked with the moved tile on the origin
    cell of the void tile and the void tile on the origin cell of the moved
    tile; [finish] is not invoked. *)
Theorem resolve_during_move (fuel : nat) (rnd : nat → Q) (g : SPGame)
    (t : nat) (tComp vtComp : SPTile) :
  reachable g → isRunning g = true → lockedInput g = false →
  tiles g !! t = Some tComp → voidTile g = Some vtComp →
  Vector2.lengthSquared
    (Vector2.subtract (gridCurrent vtComp) (gridCurrent tComp)) = 1 →
  ∃ g1 g2 g3 : SPGame,
    gamePlay fuel rnd (Some t) g = Returned tt g1 ∧
    resolve g1 = Returned tt g2 ∧
    Forall (λ x, gridCurrent x = gridOrigin x) (tiles g2) ∧
    lockedInput g2 = true ∧
    moveFinished g2 = Returned tt g3 ∧
    gridCurrent <$> tiles g3 !! t = Some (gridOrigin vtComp) ∧
    gridCurrent <$> voidTile g3 = Some (gridOrigin tComp) ∧
    gridOrigin tComp ≠ gridOrigin vtComp ∧
    isRunning g3 = false ∧ lockedInput g3 = false ∧
    invoked g3 = invoked g ++ [WillMove].
Proof.
  intros Hinv%reachable_grid_inv Hrun Hlock Ht Hvt Hadj.
  pose proof (adjacent_not_void g t tComp vtComp Ht Hvt Hadj) as Hne.
  pose proof (voidTile_Some_tileCnt g vtComp Hvt) as Hcnt.
  pose proof Hvt as Hvi. rewrite voidTile_lookup in Hvi by done.
  destruct (inv_lookup g _ _ Hinv Ht) as [Hti Hto].
  destruct (inv_lookup g _ _ Hinv Hvi) as [Hvti Hvto].
  assert (Hdiff : gridOrigin tComp ≠ gridOrigin vtComp).
  { rewrite Hto, Hvto. intros Heq.
    apply gridPosition_inj in Heq; [lia| |lia..].
    pose proof (inv_columns g Hinv). lia. }
  set (g1 := set_moving (Some t)
               (set_lockedInput true (set_invoked (invoked g ++ [WillMove]) g))).
  set (g2 := set_voidAlive true
               (set_tiles
                  ((λ x, repositionTile (puzzleShape g1) x (index x))
                     <$> tiles g1)
                  (set_isRunning false g1))).
  set (tC := repositionTile (puzzleShape g) tComp (index tComp)).
  set (vtC := repositionTile (puzzleShape g) vtComp (index vtComp)).
  assert (Ht2 : tiles g2 !! t = Some tC)
    by (simpl; by rewrite list_lookup_fmap, Ht).
  assert (Hvt2 : voidTile g2 = Some vtC).
  { rewrite voidTile_lookup by done. simpl.
    by rewrite list_lookup_fmap, Hvi. }
  destruct (moveFinished_commit g2 t tC vtC eq_refl Ht2 Hvt2 Hne)
    as (Hdone & Htl & Hvl & _).
  assert (HtC : gridCurrent tC = gridOrigin tComp)
    by (simpl; by rewrite Hto, Hti).
  assert (HvtC : gridCurrent vtC = gridOrigin vtComp)
    by (simpl; by rewrite Hvto, Hvti).
  assert (Hcheck : checkTilePosition (set_gridCurrent (gridCurrent tC) vtC)
                   = false).
  { apply not_true_is_false. rewrite checkTilePosition_true.
    change (gridCurrent tC ≠ gridOrigin vtComp). by rewrite HtC. }
  rewrite Hcheck in Hdone. simpl andb in Hdone. cbv iota in Hdone.
  exists g1, g2. eexists. split.
  { rewrite (gamePlay_click _ _ _ _ tComp vtComp) by done.
    by rewrite bool_decide_eq_true_2. }
  split; [by apply resolve_spec; eexists|]. split.
  { simpl. apply Forall_fmap.
    pose proof (inv_origin g Hinv) as Horigin.
    eapply Forall_impl; [exact Horigin|]. intros x Hx. simpl. by rewrite Hx. }
  split; [done|]. split; [exact Hdone|].
  set (s := set_tiles (swappedTiles g2 t tC vtC) (set_moving None g2)) in *.
  split.
  { change (gridCurrent <$> tiles s !! t = Some (gridOrigin vtComp)).
    rewrite Htl. change (Some (gridCurrent vtC) = Some (gridOrigin vtComp)).
    by rewrite HvtC. }
  split.
  { rewrite voidTile_lookup by done.
    change (gridCurrent <$> tiles s !! Z.to_nat (tileCnt g2 - 1)
            = Some (gridOrigin tComp)).
    rewrite Hvl. change (Some (gridCurrent tC) = Some (gridOrigin tComp)).
    by rewrite HtC. }
  done.
Qed.

Lemma resolve_during_move_witness :
  ∃ g1 g2 g3 : SPGame,
    gamePlay 0 noRandom (Some 1%nat) example_running = Returned tt g1 ∧
    resolve g1 = Returned tt g2 ∧
    Forall (λ x, gridCurrent x = gridOrigin x) (tiles g2) ∧
    lockedInput g2 = true ∧
    moveFinished g2 = Returned tt g3 ∧
    gridCurrent <$> tiles g3 !! 1%nat = Some (Vector2.New 1 2) ∧
    gridCurrent <$> voidTile g3 = Some (Vector2.New 0 1) ∧
    Vector2.New 0 1 ≠ Vector2.New 1 2 ∧
    isRunning g3 = false ∧ lockedInput g3 = false ∧
    invoked g3 = invoked example_running ++ [WillMove].
Proof.
  apply (resolve_during_move 0 noRandom example_running 1
           (mkSPTile 1 (Vector2.New 0 1) (Vector2.New 0 1))
           (mkSPTile 5 (Vector2.New 1 2) (Vector2.New 1 1))
           example_running_reachable); reflexivity.
Defined.

(** ** [getParent] *)

(** X15. [getParent] throws exactly for an iteration below 1; iteration 1
    gives the parent, each further iteration the parent of the previous
    result, and once there is no parent the result stays [null] without an
    error.  With the parents [setupWithImage] sets (the top of a tile is a
    child of its box, the box a child of the tile) the two click handlers,
    iteration 2 on the top and iteration 1 on the box, both yield the
    tile. *)
Theorem getParent_ancestors {Entity : Type}
    (parentOf : Entity → option Entity) (ent : Entity) :
  (∀ iteration, iteration < 1 ↔
     getParent parentOf ent iteration = inl ParentIteration) ∧
  getParent parentOf ent 1 = inr (parentOf ent) ∧
  (∀ iteration r, 1 ≤ iteration →
     getParent parentOf ent iteration = inr r →
     getParent parentOf ent (iteration + 1) = inr (r ≫= parentOf)) ∧
  (∀ iteration, 1 ≤ iteration → parentOf ent = None →
     getParent parentOf ent iteration = inr None) ∧
  (∀ tileBox tile, parentOf ent = Some tileBox →
     parentOf tileBox = Some tile →
     getParent parentOf ent 2 = inr (Some tile) ∧
     getParent parentOf tileBox 1 = inr (Some tile)).
Proof.
  split; [|split; [|split; [|split]]].
  - intros iteration. unfold getParent. case_bool_decide; split; done.
  - done.
  - intros iteration r Hi. unfold getParent.
    rewrite !bool_decide_eq_false_2 by lia. intros [= <-].
    replace (Z.to_nat (iteration + 1 - 1)) with (S (Z.to_nat (iteration - 1)))
      by lia.
    done.
  - intros iteration Hi Hnone. unfold getParent.
    rewrite bool_decide_eq_false_2 by lia. rewrite Hnone. f_equal.
    induction (Z.to_nat (iteration - 1)) as [|n IH]; [done|].
    simpl. by rewrite IH.
  - intros tileBox tile Hbox Htile. unfold getParent.
    rewrite !bool_decide_eq_false_2 by lia.
    change (Z.to_nat (2 - 1)) with 1%nat. change (Z.to_nat (1 - 1)) with 0%nat.
    cbn [Nat.iter nat_rect]. rewrite Hbox. split; [|by rewrite Htile].
    f_equal. exact Htile.
Qed.

(** ** The asset files of [setupWithAssets] *)

Lemma dot_free_uint (d : Decimal.uint) :
  dot_free (NilEmpty.string_of_uint d).
Proof. induction d; simpl; (split; [discriminate|done]) || done. Qed.

Lemma dot_free_number (n : Z) : dot_free (number_toString n).
Proof.
  unfold number_toString. destruct (Z.to_int n); simpl.
  - apply dot_free_uint.
  - split; [discriminate|apply dot_free_uint].
Qed.

Lemma append_inj_l (r a b : string) : r +:+ a = r +:+ b → a = b.
Proof.
  induction r as [|c r IH]; rewrite ?append_empty, ?append_String; [done|].
  intros [= Heq]. by apply IH.
Qed.

Lemma split_at_dot (s1 s2 r1 r2 : string) :
  dot_free s1 → dot_free s2 →
  s1 +:+ String "."%char r1 = s2 +:+ String "."%char r2 →
  s1 = s2 ∧ r1 = r2.
Proof.
  revert s2. induction s1 as [|a s1 IH]; intros [|b s2]; simpl;
    rewrite ?append_empty, ?append_String.
  - by intros _ _ [= ->].
  - intros _ [Hb _] [= <- _]. done.
  - intros [Ha _] _ [= -> _]. done.
  - intros [_ H1] [_ H2] [= -> Heq].
    destruct (IH s2 H1 H2 Heq) as [-> ->]. done.
Qed.

(** X16. The file [setupWithAssets] loads is the root followed by the
    decimal numeral of the tile index, a dot and the name of the file
    type; for one root, two tiles or two file types never share a file. *)
Theorem assetFile_injective (assetRoot : string) (n m : Z)
    (ty ty' : AssetFileType) :
  assetFile assetRoot n ty = assetFile assetRoot m ty' → n = m ∧ ty = ty'.
Proof.
  unfold assetFile. intros Heq%append_inj_l.
  apply split_at_dot in Heq as [Hnum Hty]; [|apply dot_free_number..].
  split; [by apply number_toString_inj|].
  by destruct ty, ty'.
Qed.

Lemma assetFile_injective_witness : 3 = 3 ∧ glb = glb.
Proof.
  apply (assetFile_injective "models/tile_" 3 3 glb glb). reflexivity.
Defined.

Example assetFile_example :
  assetFile "models/tile_" 12 glTF = "models/tile_12.glTF".
Proof. reflexivity. Qed.

(** ** Construction *)

(** X17. The checks of the constructor come in a fixed order (for an
    integer shape): a dimension below 2 gives the shape error whatever else
    is wrong; else a tile distance that is not positive gives the distance
    error; else a fixed shuffle that the validation rejects gives the error
    of the validation.  Otherwise, without [startShuffle], the constructor
    returns a game that is not running and not locked, has invoked no
    action, stores the fixed shuffle if one was given, and has one tile per
    index of [0 .. rows*columns-1], each on its origin cell. *)
Theorem construct_outcomes (fuel : nat) (rnd : nat → Q) (setup : SPSetup) :
  let shape := setup_puzzleShape setup in
  let distance := setup_tileDistance setup in
  let shapeFaulty := Vector2.x shape < 2 ∨ Vector2.y shape < 2 in
  let distanceFaulty := (fst distance <= 0)%Q ∨ (snd distance <= 0)%Q in
  (shapeFaulty → construct fuel rnd setup = Thrown ShapeFaulty (blank shape)) ∧
  (¬ shapeFaulty → distanceFaulty →
   construct fuel rnd setup = Thrown TileDistancesFaulty (blank shape)) ∧
  (¬ shapeFaulty → ¬ distanceFaulty →
   ∀ arr e g, setup_fixedShuffle setup = Some arr →
     setfixedShuffleArr arr (blank shape) = Thrown e g →
     construct fuel rnd setup = Thrown e (blank shape)) ∧
  (¬ shapeFaulty → ¬ distanceFaulty →
   (∀ arr, setup_fixedShuffle setup = Some arr →
      ∃ g, setfixedShuffleArr arr (blank shape) = Returned tt g) →
   default false (setup_startShuffle setup) = false →
   ∃ g, construct fuel rnd setup = Returned tt g ∧
        isRunning g = false ∧ lockedInput g = false ∧ moving g = None ∧
        invoked g = [] ∧
        fixedShuffleArr g = setup_fixedShuffle setup ∧
        tiles g = newTile shape <$> seqZ 0 (Vector2.x shape * Vector2.y shape) ∧
        Forall (λ t, gridCurrent t = gridOrigin t) (tiles g)).
Proof.
  intros shape distance shapeFaulty distanceFaulty.
  unfold construct, init. fold shape distance. rewrite init_checks_integer.
  destruct (bool_decide (Vector2.x shape < 2) || _) eqn:Hs.
  { apply orb_true_iff in Hs. rewrite !bool_decide_eq_true in Hs.
    repeat split; done. }
  assert (Hns : ¬ shapeFaulty).
  { apply orb_false_iff in Hs as [H1 H2].
    apply bool_decide_eq_false in H1, H2. by intros [?|?]. }
  destruct (Qle_bool (fst distance) 0 || _) eqn:Hd.
  { apply orb_true_iff in Hd. rewrite !Qle_bool_iff in Hd.
    repeat split; done. }
  assert (Hnd : ¬ distanceFaulty).
  { apply orb_false_iff in Hd as [H1 H2].
    intros [H|H]; apply Qle_bool_iff in H; congruence. }
  split; [done|]. split; [done|]. run_method. split.
  - intros _ _ arr e g -> Hthrow. rewrite Hthrow.
    rewrite setfixedShuffleArr_spec in Hthrow.
    repeat case_bool_decide; by simplify_eq.
  - intros _ _ Hfixed ->.
    destruct (setup_fixedShuffle setup) as [arr|].
    + destruct (Hfixed arr eq_refl) as [g Hg]. rewrite Hg.
      rewrite setfixedShuffleArr_spec in Hg.
      repeat case_bool_decide; simplify_eq.
      destruct (default true (setup_addToEngine setup)); eexists;
        (split; [done|]); repeat (split; [done|]);
        apply Forall_fmap, Forall_forall; done.
    + destruct (default true (setup_addToEngine setup)); eexists;
        (split; [done|]); repeat (split; [done|]);
        apply Forall_fmap, Forall_forall; done.
Qed.

(** ** The solvability check and the moves *)

Lemma inversions_adjacent (l1 l2 : list Z) (a b : Z) :
  a ≠ b →
  Z.odd (inversions (l1 ++ a :: b :: l2))
  = negb (Z.odd (inversions (l1 ++ b :: a :: l2))).
Proof.
  intros Hab.
  assert (Heq : inversions (l1 ++ a :: b :: l2)
                = inversions (l1 ++ b :: a :: l2)
                  + (if decide (b < a) then 1 else -1)).
  { induction l1 as [|x l1 IH]; simpl.
    - rewrite !filter_cons. repeat case_decide; simpl; lia.
    - rewrite IH.
      assert (l1 ++ a :: b :: l2 ≡ₚ l1 ++ b :: a :: l2) as ->
        by (apply Permutation_app_head, perm_swap).
      lia. }
  rewrite Heq. case_decide.
  - replace (inversions (l1 ++ b :: a :: l2) + 1)
      with (Z.succ (inversions (l1 ++ b :: a :: l2))) by lia.
    rewrite Z.odd_succ. by rewrite <- Z.negb_odd.
  - replace (inversions (l1 ++ b :: a :: l2) + -1)
      with (Z.pred (inversions (l1 ++ b :: a :: l2))) by lia.
    rewrite Z.odd_pred. by rewrite <- Z.negb_odd.
Qed.

(** Moving a value over [m] changes the parity of the inversions by the
    length of [m]. *)
Lemma inversions_jump (m l1 l2 : list Z) (v : Z) :
  v ∉ m →
  Z.odd (inversions (l1 ++ v :: m ++ l2))
  = xorb (Z.odd (inversions (l1 ++ m ++ v :: l2))) (Nat.odd (length m)).
Proof.
  revert l1. induction m as [|y m IH]; intros l1.
  - intros _. simpl. by rewrite xorb_false_r.
  - rewrite not_elem_of_cons. intros [Hne Hnot].
    change (l1 ++ v :: (y :: m) ++ l2) with (l1 ++ v :: y :: m ++ l2).
    rewrite inversions_adjacent by done.
    change (l1 ++ y :: v :: m ++ l2) with (l1 ++ [y] ++ v :: m ++ l2).
    rewrite (app_assoc l1 [y]), IH by done.
    rewrite <- app_assoc. simpl length. rewrite Nat.odd_succ.
    rewrite <- Nat.negb_odd. simpl.
    by destruct (Z.odd _), (Nat.odd _).
Qed.

Lemma nonVoid_app (V : Z) (l k : list Z) :
  nonVoid V (l ++ k) = nonVoid V l ++ nonVoid V k.
Proof. apply filter_app. Qed.

Lemma nonVoid_absent (V : Z) (l : list Z) : V ∉ l → nonVoid V l = l.
Proof.
  intros Hnot. apply filter_all, Forall_forall. by intros v Hv ->.
Qed.

Lemma nonVoid_cons (V v : Z) (l : list Z) :
  nonVoid V (v :: l) = if decide (v ≠ V) then v :: nonVoid V l else nonVoid V l.
Proof. unfold nonVoid. by rewrite filter_cons. Qed.

(** Exchanging the void value with another one, [m] between them. *)
Lemma nonVoid_exchange_parity (V : Z) (l1 m l2 : list Z) (a b : Z) :
  NoDup (l1 ++ a :: m ++ b :: l2) → a = V ∨ b = V →
  Z.odd (inversions (nonVoid V (l1 ++ b :: m ++ a :: l2)))
  = xorb (Z.odd (inversions (nonVoid V (l1 ++ a :: m ++ b :: l2))))
      (Nat.odd (length m)).
Proof.
  intros Hnd Hvoid.
  apply NoDup_app in Hnd as (_ & Hl1 & Hnd).
  apply NoDup_cons in Hnd as [Ha Hnd].
  apply NoDup_app in Hnd as (_ & Hm & Hnd).
  apply NoDup_cons in Hnd as [Hb _].
  assert (Hab : a ≠ b).
  { intros ->. apply Ha. rewrite elem_of_app, elem_of_cons. auto. }
  assert (Ham : a ∉ m) by (intros ?; apply Ha; rewrite elem_of_app; auto).
  assert (Hbm : b ∉ m) by (intros ?; by apply (Hm b); [|left]).
  assert (Hal2 : a ∉ l2).
  { intros ?. apply Ha. rewrite elem_of_app, elem_of_cons. auto. }
  assert (Hal1 : a ∉ l1) by (intros ?; by apply (Hl1 a); [|left]).
  assert (Hbl1 : b ∉ l1).
  { intros ?. apply (Hl1 b); [done|].
    rewrite elem_of_cons, elem_of_app, elem_of_cons. auto. }
  rewrite !nonVoid_app, !nonVoid_cons, !nonVoid_app, !nonVoid_cons.
  rewrite !(nonVoid_absent V l1), !(nonVoid_absent V m)
    by (destruct Hvoid as [<-|<-]; done).
  assert (Hvv : ∀ (A : Type) (x y : A),
            (if decide (V ≠ V) then x else y) = y).
  { intros A x y. by rewrite decide_False by (intros Hn; by apply Hn). }
  destruct Hvoid as [->| ->].
  - rewrite !Hvv, !decide_True by congruence.
    rewrite (nonVoid_absent V l2) by done.
    by apply inversions_jump.
  - rewrite !Hvv, !decide_True by congruence.
    rewrite (inversions_jump m l1 (nonVoid V l2) a) by done.
    by destruct (Z.odd _), (Nat.odd _).
Qed.

Lemma list_split_two {A} (l : list A) (i j : nat) (a b : A) :
  l !! i = Some a → l !! j = Some b → (i < j)%nat →
  ∃ l1 m l2, l = l1 ++ a :: m ++ b :: l2
             ∧ length l1 = i ∧ length m = (j - i - 1)%nat.
Proof.
  intros Hi Hj Hlt.
  pose proof (lookup_lt_Some _ _ _ Hi) as Hli.
  pose proof (lookup_lt_Some _ _ _ Hj) as Hlj.
  assert (Hj' : drop (S i) l !! (j - i - 1)%nat = Some b).
  { rewrite lookup_drop. by replace (S i + (j - i - 1))%nat with j by lia. }
  exists (take i l), (take (j - i - 1) (drop (S i) l)),
    (drop (S (j - i - 1)) (drop (S i) l)).
  split; [|split].
  - rewrite (take_drop_middle _ _ _ Hj'). by rewrite take_drop_middle.
  - rewrite length_take. lia.
  - rewrite length_take, length_drop. lia.
Qed.

Lemma swapItems_split (l1 m l2 : list Z) (a b : Z) :
  swapItems (l1 ++ a :: m ++ b :: l2) (length l1) (length l1 + S (length m))
  = l1 ++ b :: m ++ a :: l2.
Proof.
  unfold swapItems.
  rewrite list_lookup_middle by done.
  rewrite lookup_app_r by lia.
  replace (length l1 + S (length m) - length l1)%nat with (S (length m))
    by lia.
  simpl. rewrite list_lookup_middle by done.
  replace (length l1) with (length l1 + 0)%nat at 2 by lia.
  rewrite insert_app_r. simpl.
  rewrite insert_app_r. simpl.
  replace (length m) with (length m + 0)%nat at 1 by lia.
  by rewrite insert_app_r.
Qed.

Lemma swapItems_comm (arr : list Z) (i j : nat) :
  swapItems arr i j = swapItems arr j i.
Proof.
  unfold swapItems.
  destruct (decide (i = j)) as [->|Hne]; [done|].
  destruct (arr !! i) as [a|], (arr !! j) as [b|]; try done.
  by apply list_insert_insert_ne.
Qed.

(** Exchanging the void value with the value at another position changes
    the parity of the inversions of the other values by the number of
    positions in between. *)
Lemma exchange_parity (V : Z) (arr : list Z) (i j : nat) (a b : Z) :
  NoDup arr → arr !! i = Some a → arr !! j = Some b → (i < j)%nat →
  a = V ∨ b = V →
  Z.odd (inversions (nonVoid V (swapItems arr i j)))
  = xorb (Z.odd (inversions (nonVoid V arr))) (Nat.odd (j - i - 1)).
Proof.
  intros Hnd Hi Hj Hlt Hvoid.
  destruct (list_split_two arr i j a b Hi Hj Hlt)
    as (l1 & m & l2 & -> & <- & Hm).
  rewrite <- Hm.
  replace j with (length l1 + S (length m))%nat by lia.
  rewrite swapItems_split.
  by apply nonVoid_exchange_parity.
Qed.

Lemma bool_decide_js_rem_odd (v : Z) :
  0 ≤ v → bool_decide (js_rem v 2 = 1) = Z.odd v.
Proof.
  intros Hv. destruct (Z.odd v) eqn:Hodd.
  - apply bool_decide_eq_true_2. by apply js_rem_2_odd.
  - apply bool_decide_eq_false_2. rewrite js_rem_2_odd by done. congruence.
Qed.

Lemma bool_decide_js_rem_even (v : Z) :
  0 ≤ v → bool_decide (js_rem v 2 = 0) = Z.even v.
Proof.
  intros Hv. destruct (Z.even v) eqn:Heven.
  - apply bool_decide_eq_true_2. by apply js_rem_2_even.
  - apply bool_decide_eq_false_2. rewrite js_rem_2_even by done. congruence.
Qed.

(** The verdict of [permutationProof] on a rearrangement of the identity
    with the void value at position [p]. *)
Lemma permutationProof_verdict (rows columns : Z) (arr : list Z) (p : nat) :
  1 ≤ rows → 1 ≤ columns →
  arr ≡ₚ seqZ 0 (rows * columns) →
  arr !! p = Some (rows * columns - 1) →
  permutationProof (Vector2.New rows columns) arr =
    let inv := inversions (nonVoid (rows * columns - 1) arr) in
    if Z.odd columns then negb (Z.odd inv)
    else xorb (Z.odd inv) (Z.odd (rows - Z.of_nat p / columns)).
Proof.
  intros Hr Hc Hperm Hvoid. assert (HN : 1 ≤ rows * columns) by nia.
  unfold permutationProof.
  rewrite (permutationSum_inversions _ _ HN Hperm). simpl.
  rewrite (arr_length _ _ HN Hperm).
  rewrite (indexOf_lookup _ _ _ (arr_NoDup _ _ Hperm) Hvoid).
  unfold js_floor_div.
  pose proof (inversions_nonneg (nonVoid (rows * columns - 1) arr)) as Hinv.
  assert (Hrow : 1 ≤ rows - Z.of_nat p / columns).
  { apply lookup_lt_Some in Hvoid.
    pose proof (arr_length _ _ HN Hperm) as Hlen.
    assert (Z.of_nat p / columns < rows); [|lia].
    apply Z.div_lt_upper_bound; lia. }
  rewrite bool_decide_js_rem_odd by lia.
  destruct (Z.odd columns).
  - rewrite bool_decide_js_rem_even by done. by rewrite Z.negb_odd.
  - rewrite bool_decide_js_rem_odd by lia. apply Z.odd_add.
Qed.

Lemma grid_adjacent_cases (columns P Q : Z) :
  1 ≤ columns → 0 ≤ P → 0 ≤ Q →
  Vector2.lengthSquared
    (Vector2.subtract (gridPosition (Vector2.New 0 columns) P)
       (gridPosition (Vector2.New 0 columns) Q)) = 1 →
  (P / columns = Q / columns ∧ (P = Q + 1 ∨ Q = P + 1)) ∨
  (P = Q + columns ∧ P / columns = Q / columns + 1) ∨
  (Q = P + columns ∧ Q / columns = P / columns + 1).
Proof.
  intros Hc HP HQ. unfold Vector2.lengthSquared, Vector2.subtract,
    gridPosition, js_floor_div, js_rem. simpl.
  rewrite !Z.rem_mod_nonneg by lia.
  pose proof (Z.div_mod P columns ltac:(lia)) as HdP.
  pose proof (Z.div_mod Q columns ltac:(lia)) as HdQ.
  pose proof (Z.mod_pos_bound P columns ltac:(lia)).
  pose proof (Z.mod_pos_bound Q columns ltac:(lia)).
  set (a := P / columns - Q / columns).
  set (b := P mod columns - Q mod columns).
  intros Hsq.
  assert (Hab : (a = 0 ∧ (b = 1 ∨ b = -1)) ∨ (b = 0 ∧ (a = 1 ∨ a = -1)))
    by nia.
  unfold a, b in Hab. nia.
Qed.

Lemma nat_odd_Z (n : nat) : Nat.odd n = Z.odd (Z.of_nat n).
Proof.
  induction n as [|n IH]; [done|].
  rewrite Nat.odd_succ, <- Nat.negb_odd, IH.
  by rewrite Nat2Z.inj_succ, Z.odd_succ, <- Z.negb_odd.
Qed.

Lemma odd_shift (v w : Z) :
  w = v + 1 ∨ v = w + 1 → Z.odd w = negb (Z.odd v).
Proof.
  intros [->| ->].
  - replace (v + 1) with (Z.succ v) by lia.
    by rewrite Z.odd_succ, <- Z.negb_odd.
  - replace (w + 1) with (Z.succ w) by lia.
    rewrite Z.odd_succ, <- Z.negb_odd. by destruct (Z.odd w).
Qed.

(** X18. A legal move keeps the verdict of [permutationProof]: when, in
    a rearrangement of [0 .. rows*columns-1], the void value is exchanged
    with the value at a position whose cell is at squared distance 1 from
    the cell of the void value (the test [gamePlay] makes), the result is
    again such a rearrangement, with the two values at each other's
    position, and [permutationProof] answers for it what it answers for the
    given one. *)
Theorem permutationProof_move_invariant (rows columns : Z) (arr : list Z)
    (p q : nat) (v : Z) :
  1 ≤ rows → 1 ≤ columns →
  arr ≡ₚ seqZ 0 (rows * columns) →
  arr !! p = Some (rows * columns - 1) → arr !! q = Some v →
  Vector2.lengthSquared
    (Vector2.subtract
       (gridPosition (Vector2.New rows columns) (Z.of_nat p))
       (gridPosition (Vector2.New rows columns) (Z.of_nat q))) = 1 →
  swapItems arr p q ≡ₚ seqZ 0 (rows * columns) ∧
  swapItems arr p q !! q = Some (rows * columns - 1) ∧
  swapItems arr p q !! p = Some v ∧
  permutationProof (Vector2.New rows columns) (swapItems arr p q)
  = permutationProof (Vector2.New rows columns) arr.
Proof.
  intros Hr Hc Hperm Hp Hq Hadj.
  set (V := rows * columns - 1) in *.
  assert (Hnd : NoDup arr) by (rewrite Hperm; apply NoDup_seqZ).
  pose proof (lookup_lt_Some _ _ _ Hp) as Hlp.
  pose proof (lookup_lt_Some _ _ _ Hq) as Hlq.
  change (gridPosition (Vector2.New rows columns) (Z.of_nat p))
    with (gridPosition (Vector2.New 0 columns) (Z.of_nat p)) in Hadj.
  change (gridPosition (Vector2.New rows columns) (Z.of_nat q))
    with (gridPosition (Vector2.New 0 columns) (Z.of_nat q)) in Hadj.
  apply grid_adjacent_cases in Hadj; [|lia..].
  assert (Hne : p ≠ q) by (intros ->; lia).
  assert (Hperm' : swapItems arr p q ≡ₚ seqZ 0 (rows * columns))
    by by rewrite swapItems_Permutation.
  assert (Hq' : swapItems arr p q !! q = Some V).
  { unfold swapItems. rewrite Hp, Hq.
    by rewrite list_lookup_insert_eq by (by rewrite length_insert). }
  assert (Hp' : swapItems arr p q !! p = Some v).
  { unfold swapItems. rewrite Hp, Hq.
    rewrite list_lookup_insert_ne by done.
    by rewrite list_lookup_insert_eq. }
  do 3 (split; [done|]).
  rewrite (permutationProof_verdict rows columns _ q) by done.
  rewrite (permutationProof_verdict rows columns arr p) by done.
  cbv zeta. fold V.
  assert (Hpar : Z.odd (inversions (nonVoid V (swapItems arr p q)))
                 = xorb (Z.odd (inversions (nonVoid V arr)))
                     (Z.odd (Z.abs (Z.of_nat p - Z.of_nat q) - 1))).
  { destruct (decide (p < q)%nat) as [Hlt|Hge].
    - rewrite (exchange_parity V arr p q V v) by auto.
      rewrite nat_odd_Z. do 2 f_equal. lia.
    - rewrite swapItems_comm.
      rewrite (exchange_parity V arr q p v V) by (auto || lia).
      rewrite nat_odd_Z. do 2 f_equal. lia. }
  rewrite Hpar.
  destruct Hadj as [[Hrow Hcol]|Hvert].
  - rewrite Hrow.
    replace (Z.abs (Z.of_nat p - Z.of_nat q) - 1) with 0 by lia.
    simpl. by rewrite xorb_false_r.
  - assert (Z.abs (Z.of_nat p - Z.of_nat q) - 1 = Z.pred columns) as ->
      by lia.
    rewrite Z.odd_pred, <- Z.negb_odd.
    assert (Z.odd (rows - Z.of_nat q / columns)
            = negb (Z.odd (rows - Z.of_nat p / columns))) as ->
      by (apply odd_shift; lia).
    clear Hpar.
    generalize (Z.odd columns), (Z.odd (inversions (nonVoid V arr))),
      (Z.odd (rows - Z.of_nat p / columns)).
    by intros [] [] [].
Qed.

Lemma permutationProof_move_invariant_witness :
  permutationProof (Vector2.New 2 3) (swapItems [0; 1; 2; 3; 5; 4] 4 1)
  = permutationProof (Vector2.New 2 3) [0; 1; 2; 3; 5; 4].
Proof.
  refine (proj2 (proj2 (proj2
    (permutationProof_move_invariant 2 3 [0; 1; 2; 3; 5; 4] 4 1 1
       _ _ _ _ _ _)))); try (lia || reflexivity).
  change (seqZ 0 (2 * 3)) with [0; 1; 2; 3; 4; 5].
  do 4 apply perm_skip. apply perm_swap.
Defined.
